(** * socketio.c : the SIO socket layer, embedded in Rocq

    The embedding follows the [__linux__] branches of the source; the
    [_WIN32] branches are not embedded.  Four lines of those branches are
    read the one way they can be meant: [s.af_family] as [s.sin_family],
    [&sin_addr->s_addr] as [&s.sin_addr.s_addr], [t->tv_sec] and
    [t->tv_usec] as fields of the local [t], and [? &set, NULL] as
    [? &set : NULL].  Calls into the C library and the kernel
    ([socket], [fcntl], [connect], [send], [recv], [select], [getsockopt],
    [close]) are not part of the program: the program talks to them through
    a script of replies that it consumes in order, and every call it makes
    is logged with the reply it got.  A function that needs a reply when
    the script is empty is [Awaiting]: it has not returned yet. *)

From Stdlib Require Import ZArith List String Ascii Bool Lia.
Import ListNotations.
Local Open Scope Z_scope.

(** ** Machine integers *)

Module MachineInt.

Definition INT_MAX : Z := 2147483647.
Definition SIZE_MAX : Z := 18446744073709551615.

(** [int] arithmetic: two's complement on 32 bits. *)
Definition int_wrap (x : Z) : Z := (x + 2 ^ 31) mod 2 ^ 32 - 2 ^ 31.

(** [size_t] arithmetic: modulo 2^64 (LP64). *)
Definition size_wrap (x : Z) : Z := x mod 2 ^ 64.

(** [htons] on a little-endian host: swap the two bytes. *)
Definition htons (p : Z) : Z :=
  Z.lor (Z.shiftl (Z.land p 255) 8) (Z.land (Z.shiftr p 8) 255).

End MachineInt.
Export MachineInt.

(** ** Constants of the platform headers and of socketio.h *)

Module Consts.

(* <sys/socket.h>, <netinet/in.h>, <errno.h>, <fcntl.h> on Linux *)
Definition AF_INET : Z := 2.
Definition SOCK_STREAM : Z := 1.
Definition IPPROTO_TCP : Z := 6.
Definition SOL_SOCKET : Z := 1.
Definition SO_ERROR : Z := 4.
Definition F_GETFL : Z := 3.
Definition F_SETFL : Z := 4.
Definition O_NONBLOCK : Z := 2048.
Definition EAGAIN : Z := 11.
Definition EWOULDBLOCK : Z := 11.
Definition EINPROGRESS : Z := 115.
Definition EINTR : Z := 4.

(* socketio.c *)
Definition SELECT_READ : Z := 0.
Definition SELECT_WRITE : Z := 1.

(** Modelled from the spec: the macro [INV_SOCK] of socketio.h (the header
    is not in the tree), the "distinguished sentinel value" of a handle
    that is invalid or unset; on Linux, what [socket] returns when it
    fails. *)
Definition INV_SOCK : Z := -1.

(** Modelled from the spec: the macro [SOCK_ERROR] of socketio.h, the
    value [connect] returns when it fails. *)
Definition SOCK_ERROR : Z := -1.

(** Modelled from the spec: the macro [SOCK_ERR] of socketio.h, the value
    [send] and [recv] return when they fail. *)
Definition SOCK_ERR : Z := -1.

(** Modelled from the spec: the option bit of socketio.h that [IS_NONBLOCK]
    tests, the "blocking_mode" flag of a connection. *)
Definition SIO_NONBLOCK : Z := 1.

End Consts.
Export Consts.

(** ** The platform: calls, replies, the world *)

Record sockaddr_in : Type := SockAddr {
  sin_family : Z;
  sin_port : Z;
  sin_addr : list Z          (* the four octets, in memory order *)
}.

Inductive call : Type :=
| socket_c (domain type protocol : Z)
| fcntl_c (fd cmd arg : Z)
| connect_c (fd : Z) (addr : sockaddr_in)
| send_c (fd : Z) (offset count flags : Z)   (* &buf[offset], count *)
| recv_c (fd : Z) (offset count flags : Z)
| select_c (nfds : Z) (readfds writefds : option Z) (tv_sec : Z)
| getsockopt_c (fd level optname : Z)
| close_c (fd : Z).

(** What one call gives back: its return value, the value it leaves in
    [errno] when it sets it, and the value it stores through its output
    pointer when it stores one. *)
Record reply : Type := Reply {
  rv : Z;
  rerrno : option Z;
  rout : option Z
}.

Definition event : Type := (call * reply)%type.

Record world : Type := World {
  script : list reply;       (* replies the platform has yet to give *)
  errno : Z;
  trace : list event         (* calls made so far, oldest first *)
}.

Inductive outcome (A : Type) : Type :=
| Returned (a : A) (w : world)
| Awaiting (w : world).
Arguments Returned {A} a w.
Arguments Awaiting {A} w.

Definition M (A : Type) : Type := world -> outcome A.

Definition ret {A} (a : A) : M A := fun w => Returned a w.

Definition bind {A B} (m : M A) (k : A -> M B) : M B :=
  fun w =>
    match m w with
    | Returned a w' => k a w'
    | Awaiting w' => Awaiting w'
    end.

Declare Scope sio_scope.
Delimit Scope sio_scope with sio.
Notation "x <- m ;; k" := (bind m (fun x => k))
  (at level 100, m at next level, right associativity) : sio_scope.
Notation "m ;;; k" := (bind m (fun _ => k))
  (at level 100, right associativity) : sio_scope.
Local Open Scope sio_scope.

Definition platform (c : call) : M reply :=
  fun w =>
    match script w with
    | [] => Awaiting w
    | r :: rest =>
        Returned r {| script := rest;
                      errno := match rerrno r with
                               | Some e => e
                               | None => errno w
                               end;
                      trace := trace w ++ [(c, r)] |}
    end.

Definition get_errno : M Z := fun w => Returned (errno w) w.

Definition set_errno (e : Z) : M unit :=
  fun w => Returned tt {| script := script w; errno := e; trace := trace w |}.

(** [while] loops: the body either goes round again with a new loop state
    or leaves the function with a value. *)
Fixpoint while_loop {St A} (fuel : nat) (body : St -> M (St + A)) (s : St)
  : M A :=
  fun w =>
    match fuel with
    | O => Awaiting w
    | S fuel' =>
        match body s w with
        | Returned (inl s') w' => while_loop fuel' body s' w'
        | Returned (inr a) w' => Returned a w'
        | Awaiting w' => Awaiting w'
        end
    end.

(** Every pass through the transfer loops that goes round again has used
    a reply, so one more pass than there are replies is always enough. *)
Definition enough_for (w : world) : nat := S (List.length (script w)).

(** ** struct socketio *)

(** Modelled from the spec: [struct socketio] of socketio.h, with the
    fields socketio.c reads and writes: the handle, the option bits, the
    timeout in seconds of a readiness wait and the budget of consecutive
    failures.  The header is not in the tree, so the type of the budget is
    not known: the specification calls it unsigned, [sio_set_maxnfails]
    takes an [int].  The field holds its value as an integer, and on values
    from 0 to [INT_MAX] the test [nfails >= sio->maxnfails] reads the same
    under both typings, [nfails] never being negative. *)
Record socketio : Type := Sio {
  socket : Z;
  opts : Z;
  timeout : Z;
  maxnfails : Z
}.

Definition with_socket (sio : socketio) (fd : Z) : socketio :=
  {| socket := fd; opts := opts sio; timeout := timeout sio;
     maxnfails := maxnfails sio |}.

(** Modelled from the spec: the macro [IS_NONBLOCK] of socketio.h, true
    when the connection was asked to be non-blocking. *)
Definition IS_NONBLOCK (sio : socketio) : bool :=
  negb (Z.land (opts sio) SIO_NONBLOCK =? 0).

(** [sio_set_option]: [sio->opts |= opt]. *)
Definition sio_set_option (sio : socketio) (opt : Z) : socketio :=
  {| socket := socket sio; opts := Z.lor (opts sio) opt;
     timeout := timeout sio; maxnfails := maxnfails sio |}.

(** [sio_set_timeout]: [sio->timeout = s]. *)
Definition sio_set_timeout (sio : socketio) (s : Z) : socketio :=
  {| socket := socket sio; opts := opts sio; timeout := s;
     maxnfails := maxnfails sio |}.

(** [sio_set_maxnfails]: [sio->maxnfails = n]. *)
Definition sio_set_maxnfails (sio : socketio) (n : Z) : socketio :=
  {| socket := socket sio; opts := opts sio; timeout := timeout sio;
     maxnfails := n |}.

(** ** The functions of socketio.c *)

(** [sio_select]: one [select] on the connection's descriptor, in the
    read set or in the write set, with [tv_sec = sio->timeout]; 1 when
    [select] returns 1, else 0. *)
Definition sio_select (sio : socketio) (mode : Z) : M Z :=
  r <- platform (select_c (int_wrap (socket sio + 1))
                          (if mode =? SELECT_READ then Some (socket sio) else None)
                          (if mode =? SELECT_WRITE then Some (socket sio) else None)
                          (timeout sio)) ;;
  if rv r =? 1 then ret 1 else ret 0.

(** [is_connected]: wait once for writing; when ready, read [SO_ERROR]
    into [err], which starts as 0. *)
Definition is_connected (sio : socketio) : M Z :=
  res <- sio_select sio SELECT_WRITE ;;
  if res =? 1 then
    r <- platform (getsockopt_c (socket sio) SOL_SOCKET SO_ERROR) ;;
    let err := match rout r with Some v => v | None => 0 end in
    if negb (err =? 0) then ret (-1) else ret 0
  else ret (-1).

(** [sio_close]: [close] the descriptor, whatever [close] answers, and
    set the handle to [INV_SOCK]. *)
Definition sio_close (sio : socketio) : M socketio :=
  platform (close_c (socket sio)) ;;;
  ret (with_socket sio INV_SOCK).

(** [sio_socket]: create the socket and, for a non-blocking connection,
    set [O_NONBLOCK]; the [error] label closes the socket.  The test on the
    flags is [flags < 1], as in the source. *)
Definition sio_socket (sio : socketio) : M (Z * socketio) :=
  r <- platform (socket_c AF_INET SOCK_STREAM IPPROTO_TCP) ;;
  let sio := with_socket sio (rv r) in
  if socket sio =? INV_SOCK then ret (-1, sio)
  else if IS_NONBLOCK sio then
    g <- platform (fcntl_c (socket sio) F_GETFL 0) ;;
    let flags := rv g in
    if flags <? 1 then
      (sio' <- sio_close sio ;; ret (-1, sio'))
    else
      s <- platform (fcntl_c (socket sio) F_SETFL (Z.lor flags O_NONBLOCK)) ;;
      if rv s <? 0 then
        (sio' <- sio_close sio ;; ret (-1, sio'))
      else ret (0, sio)
  else ret (0, sio).

(** [inet_pton (AF_INET, host, dst)]: the C library's parser of
    dotted-decimal addresses, as a function of the string.  Four decimal
    fields of value at most 255, separated by single dots, no other
    character, no leading zero in a field of two or three digits. *)
Definition digit_of (c : ascii) : option Z :=
  let n := Z.of_nat (nat_of_ascii c) in
  if (48 <=? n) && (n <=? 57) then Some (n - 48) else None.

Fixpoint pton_fields (s : string) (seen : list Z) (cur : option Z)
  : option (list Z) :=
  match s with
  | EmptyString =>
      match cur with
      | Some v => if (List.length seen =? 3)%nat then Some (rev (v :: seen)) else None
      | None => None
      end
  | String c s' =>
      match digit_of c with
      | Some d =>
          match cur with
          | None => pton_fields s' seen (Some d)
          | Some v =>
              if v =? 0 then None
              else if 255 <? v * 10 + d then None
              else pton_fields s' seen (Some (v * 10 + d))
          end
      | None =>
          if Ascii.eqb c "."%char then
            match cur with
            | Some v =>
                if (List.length seen <? 3)%nat then pton_fields s' (v :: seen) None
                else None
            | None => None
            end
          else None
      end
  end.

Definition inet_pton (host : string) : option (list Z) :=
  pton_fields host [] None.

(** [sio_connect].  The value [inet_pton] returns is not looked at.  The
    first argument of [connect] is [AF_INET], as in the source. *)
Definition sio_connect (sio : socketio) (host : string) (port : Z) : M Z :=
  (* memset: every field of s starts as zero *)
  let s_family := AF_INET in
  let s_port := htons port in
  let s_addr := match inet_pton host with
                | Some octets => octets     (* stored through the pointer *)
                | None => [0; 0; 0; 0]      (* left as memset made it *)
                end in
  set_errno 0 ;;;
  r <- platform (connect_c AF_INET (SockAddr s_family s_port s_addr)) ;;
  let res := rv r in
  if res =? SOCK_ERROR then
    e <- get_errno ;;
    if e =? EINPROGRESS then is_connected sio
    else ret (-1)
  else ret 0.

(** The loop state of the transfer loops: [total_bytes] and [nfails]. *)
Record xfer_state : Type := Xfer { total_bytes : Z; nfails : Z }.

(** [sio_send]: one pass through the [while] loop. *)
Definition send_body (sio : socketio) (len : Z) (st : xfer_state)
  : M (xfer_state + Z) :=
  if total_bytes st <? len then
    r <- platform (send_c (socket sio) (total_bytes st)
                          (size_wrap (len - total_bytes st)) 0) ;;
    let temp := rv r in
    if temp =? SOCK_ERR then
      let nfails' := int_wrap (nfails st + 1) in
      e <- get_errno ;;
      if (e =? EAGAIN) || (e =? EWOULDBLOCK) then
        sio_select sio SELECT_WRITE ;;;
        if nfails' >=? maxnfails sio then ret (inr (-1))
        else ret (inl (Xfer (total_bytes st) nfails'))
      else ret (inr (-1))
    else
      ret (inl (Xfer (size_wrap (total_bytes st + temp)) 0))
  else ret (inr 0).

Definition send_loop (sio : socketio) (len : Z) (st : xfer_state) : M Z :=
  fun w => while_loop (enough_for w) (send_body sio len) st w.

Definition sio_send (sio : socketio) (len : Z) : M Z :=
  send_loop sio len (Xfer 0 0).

(** [sio_recv]: one pass through the [while] loop. *)
Definition recv_body (sio : socketio) (len : Z) (st : xfer_state)
  : M (xfer_state + Z) :=
  if total_bytes st <? len then
    r <- platform (recv_c (socket sio) (total_bytes st)
                          (size_wrap (len - total_bytes st)) 0) ;;
    let temp := rv r in
    if temp =? SOCK_ERR then
      let nfails' := int_wrap (nfails st + 1) in
      e <- get_errno ;;
      if (e =? EAGAIN) || (e =? EWOULDBLOCK) then
        sio_select sio SELECT_READ ;;;
        if nfails' >=? maxnfails sio then ret (inr (-1))
        else ret (inl (Xfer (total_bytes st) nfails'))
      else ret (inr (-1))
    else if temp >? 0 then
      ret (inl (Xfer (size_wrap (total_bytes st + temp)) 0))
    else ret (inr (-1))
  else ret (inr 0).

Definition recv_loop (sio : socketio) (len : Z) (st : xfer_state) : M Z :=
  fun w => while_loop (enough_for w) (recv_body sio len) st w.

Definition sio_recv (sio : socketio) (len : Z) : M Z :=
  recv_loop sio len (Xfer 0 0).


(** ** Vocabulary of the statements *)

(** Replies: [n] bytes moved (or the plain return value [n]); failure with
    [errno] set; the would-block failure; a value stored through the
    output pointer. *)
Definition moves (n : Z) : reply := Reply n None None.
Definition fails (e : Z) : reply := Reply (-1) (Some e) None.
Definition would_block : reply := fails EAGAIN.
Definition stores (v : Z) : reply := Reply 0 None (Some v).

Definition boot (replies : list reply) : world := World replies 0 [].

(** A non-blocking connection on descriptor 3, with a timeout of one
    second and a budget of three failures. *)
Definition sio0 : socketio :=
  with_socket
    (sio_set_maxnfails
       (sio_set_timeout (sio_set_option (Sio INV_SOCK 0 0 0) SIO_NONBLOCK) 1) 3)
    3.

(** The world once the platform has answered call [c] with [r]. *)
Definition answered (c : call) (r : reply) (w : world) : world :=
  {| script := tl (script w);
     errno := match rerrno r with Some e => e | None => errno w end;
     trace := trace w ++ [(c, r)] |}.

Definition world_of {A} (o : outcome A) : world :=
  match o with Returned _ w => w | Awaiting w => w end.

(** The calls made between world [w] and the later world [w']. *)
Definition since (w w' : world) : list event :=
  skipn (List.length (trace w)) (trace w').

(** What the caller holds after a call: the value returned and [errno]. *)
Definition observed (o : outcome Z) : option (Z * Z) :=
  match o with
  | Returned v w => Some (v, errno w)
  | Awaiting _ => None
  end.

(** Send and receive share most statements. *)
Inductive direction : Type := Tx | Rx.

Definition xfer_call (d : direction) : Z -> Z -> Z -> Z -> call :=
  match d with Tx => send_c | Rx => recv_c end.

Definition xfer_body (d : direction) :=
  match d with Tx => send_body | Rx => recv_body end.

Definition xfer_loop (d : direction) :=
  match d with Tx => send_loop | Rx => recv_loop end.

Definition sio_xfer (d : direction) :=
  match d with Tx => sio_send | Rx => sio_recv end.

Definition wait_call (d : direction) (sio : socketio) : call :=
  select_c (int_wrap (socket sio + 1))
           (match d with Rx => Some (socket sio) | Tx => None end)
           (match d with Tx => Some (socket sio) | Rx => None end)
           (timeout sio).

(** The call a pass makes when [total_bytes < len]. *)
Definition request (d : direction) (sio : socketio) (len : Z)
  (st : xfer_state) : call :=
  xfer_call d (socket sio) (total_bytes st)
            (size_wrap (len - total_bytes st)) 0.

Definition errno_after (r : reply) (w : world) : Z :=
  match rerrno r with Some e => e | None => errno w end.

Definition is_again (e : Z) : bool := (e =? EAGAIN) || (e =? EWOULDBLOCK).

(** One pass through a transfer loop, as a relation: every case of the
    body, with the world it leaves. *)
Inductive pass (d : direction) (sio : socketio) (len : Z) (st : xfer_state)
  (w : world) : outcome (xfer_state + Z) -> Prop :=
| pass_done :
    len <= total_bytes st ->
    pass d sio len st w (Returned (inr 0) w)
| pass_awaits :
    total_bytes st < len -> script w = [] ->
    pass d sio len st w (Awaiting w)
| pass_moves r rest :
    total_bytes st < len -> script w = r :: rest ->
    rv r <> SOCK_ERR -> (d = Rx -> 0 < rv r) ->
    pass d sio len st w
         (Returned (inl (Xfer (size_wrap (total_bytes st + rv r)) 0))
                   (answered (request d sio len st) r w))
| pass_closed r rest :
    d = Rx ->
    total_bytes st < len -> script w = r :: rest ->
    rv r <> SOCK_ERR -> rv r <= 0 ->
    pass d sio len st w
         (Returned (inr (-1)) (answered (request d sio len st) r w))
| pass_fatal r rest :
    total_bytes st < len -> script w = r :: rest ->
    rv r = SOCK_ERR -> is_again (errno_after r w) = false ->
    pass d sio len st w
         (Returned (inr (-1)) (answered (request d sio len st) r w))
| pass_stall_awaits r :
    total_bytes st < len -> script w = [r] ->
    rv r = SOCK_ERR -> is_again (errno_after r w) = true ->
    pass d sio len st w (Awaiting (answered (request d sio len st) r w))
| pass_stall r r2 rest :
    total_bytes st < len -> script w = r :: r2 :: rest ->
    rv r = SOCK_ERR -> is_again (errno_after r w) = true ->
    pass d sio len st w
         (Returned (if int_wrap (nfails st + 1) >=? maxnfails sio
                    then inr (-1)
                    else inl (Xfer (total_bytes st) (int_wrap (nfails st + 1))))
                   (answered (wait_call d sio) r2
                             (answered (request d sio len st) r w))).

(** *** sio_connect *)

(** The value [is_connected] finds in [err] after [getsockopt]. *)
Definition pending_error (r : reply) : Z :=
  match rout r with Some v => v | None => 0 end.

(** The address field of [s] when [connect] is called. *)
Definition address_field (host : string) : list Z :=
  match inet_pton host with Some octets => octets | None => [0; 0; 0; 0] end.

Definition connect_call (host : string) (port : Z) : call :=
  connect_c AF_INET (SockAddr AF_INET (htons port) (address_field host)).

(** *** Scripts of transfers *)

(** Would-block replies, each followed by the reply of the wait. *)
Definition stalls (waits : list reply) : list reply :=
  flat_map (fun s => [would_block; s]) waits.

(** A round: some stalls, then a reply that moves [n] bytes. *)
Definition round : Type := (list reply * Z)%type.

Definition round_script (rd : round) : list reply :=
  stalls (fst rd) ++ [moves (snd rd)].

Definition rounds_script (rds : list round) : list reply :=
  flat_map round_script rds.

Definition progress (rds : list round) : Z :=
  fold_right Z.add 0 (map snd rds).

(** A round stays within the budget when its stalls are fewer than
    [maxnfails]. *)
Definition within_budget (sio : socketio) (rd : round) : Prop :=
  Z.of_nat (List.length (fst rd)) < maxnfails sio.

(** What counts as moving on: for [sio_recv] at least one byte. *)
Definition advances (d : direction) (n : Z) : Prop :=
  match d with Tx => 0 <= n | Rx => 0 < n end.

(** Each round starts while the transfer is still short of [len]. *)
Fixpoint in_flight (len total : Z) (rds : list round) : Prop :=
  match rds with
  | [] => True
  | rd :: rds' => total < len /\ in_flight len (total + snd rd) rds'
  end.

(** The calls a run of stalls makes, and those of whole rounds. *)
Definition stall_log (d : direction) (sio : socketio) (len total : Z)
  (waits : list reply) : list event :=
  flat_map (fun s => [(request d sio len (Xfer total 0), would_block);
                      (wait_call d sio, s)]) waits.

Fixpoint rounds_log (d : direction) (sio : socketio) (len total : Z)
  (rds : list round) : list event :=
  match rds with
  | [] => []
  | rd :: rds' =>
      stall_log d sio len total (fst rd)
      ++ (request d sio len (Xfer total 0), moves (snd rd))
      :: rounds_log d sio len (total + snd rd) rds'
  end.

(** *** What the log of calls says about a transfer *)

Definition xfer_count (c : call) : option Z :=
  match c with
  | send_c _ _ n _ | recv_c _ _ n _ => Some n
  | _ => None
  end.

(** The contract of [send] and [recv]: the call fails, or it transfers at
    most the count it was asked for. *)
Definition honours (ev : event) : Prop :=
  match xfer_count (fst ev) with
  | Some n => rv (snd ev) = SOCK_ERR \/ 0 <= rv (snd ev) <= n
  | None => True
  end.

Definition moved (r : reply) : Z := if rv r =? SOCK_ERR then 0 else rv r.

(** Bytes the platform reports as transferred over a stretch of the log. *)
Fixpoint transferred (evs : list event) : Z :=
  match evs with
  | [] => 0
  | (c, r) :: evs' =>
      match xfer_count c with
      | Some _ => moved r + transferred evs'
      | None => transferred evs'
      end
  end.

(** The log follows the running total: every transfer call is the call for
    the [len - total] bytes at offset [total], is made while [total < len],
    and leaves the total within [len]. *)
Fixpoint tracks (d : direction) (sio : socketio) (len total : Z)
  (evs : list event) : Prop :=
  match evs with
  | [] => 0 <= total <= len
  | (c, r) :: evs' =>
      match xfer_count c with
      | Some _ =>
          c = xfer_call d (socket sio) total (len - total) 0 /\
          0 <= total < len /\
          total + moved r <= len /\
          tracks d sio len (total + moved r) evs'
      | None => tracks d sio len total evs'
      end
  end.

(** Bounds on the buffer: a transfer call stays inside the [len] bytes,
    and so does what the platform moved. *)
Definition in_bounds (len : Z) (ev : event) : Prop :=
  match fst ev with
  | send_c _ off n _ | recv_c _ off n _ =>
      0 <= off /\ off + n <= len /\ off + moved (snd ev) <= len
  | _ => True
  end.

(** *** Further vocabulary *)

(** The calls [sio_connect] can make, in the order it makes them. *)
Definition connect_plan (sio : socketio) (host : string) (port : Z)
  : list call :=
  [connect_call host port; wait_call Tx sio;
   getsockopt_c (socket sio) SOL_SOCKET SO_ERROR].

(** The calls a transfer in direction [d] can make: a transfer on the
    connection's descriptor with flags 0, or the wait of that direction. *)
Definition own_call (d : direction) (sio : socketio) (c : call) : Prop :=
  (exists off n, c = xfer_call d (socket sio) off n 0) \/ c = wait_call d sio.

(** The descriptors the log closes, in order. *)
Fixpoint closed_fds (evs : list event) : list Z :=
  match evs with
  | [] => []
  | (close_c fd, _) :: evs' => fd :: closed_fds evs'
  | _ :: evs' => closed_fds evs'
  end.

(** The seconds of waiting the log allows for: the [tv_sec] of its
    [select] calls. *)
Fixpoint waited (evs : list event) : Z :=
  match evs with
  | [] => 0
  | (select_c _ _ _ t, _) :: evs' => t + waited evs'
  | _ :: evs' => waited evs'
  end.

(** What a call has come to, leaving the log aside: the value returned if
    any, the replies not yet used, and [errno]. *)
Definition summary (o : outcome Z) : option Z * list reply * Z :=
  match o with
  | Returned v w => (Some v, script w, errno w)
  | Awaiting w => (None, script w, errno w)
  end.

(** The loop states a transfer goes through: [reaches d sio len st w st' w']
    when passes through the loop lead from the loop head in state [st] and
    world [w] to the loop head in state [st'] and world [w']. *)
Inductive reaches (d : direction) (sio : socketio) (len : Z)
  : xfer_state -> world -> xfer_state -> world -> Prop :=
| reaches_here st w : reaches d sio len st w st w
| reaches_pass st w st1 w1 st2 w2 :
    xfer_body d sio len st w = Returned (inl st1) w1 ->
    reaches d sio len st1 w1 st2 w2 ->
    reaches d sio len st w st2 w2.

(** A reply that is a failure or moves at least one byte. *)
Definition never_zero (r : reply) : Prop := rv r = SOCK_ERR \/ 0 < rv r.

(** The same, asked of the replies to [send] and [recv] only: what a wait
    is answered is left free. *)
Definition transfer_never_zero (ev : event) : Prop :=
  match xfer_count (fst ev) with
  | Some _ => never_zero (snd ev)
  | None => True
  end.

(** ** Proof steps *)

Ltac body_cases d w :=
  destruct d; destruct w as [sc e0 tr];
  cbn [script errno trace] in *; subst;
  unfold xfer_body, xfer_call, wait_call, send_body, recv_body, bind,
    platform, sio_select, get_errno, ret, answered, errno_after, is_again in *;
  cbn [script errno trace total_bytes nfails tl] in *.

(** ** The embedding at work *)

Example pton_ok : inet_pton "192.168.0.10" = Some [192; 168; 0; 10].
Proof. reflexivity. Qed.

Example pton_bad_name : inet_pton "localhost" = None.
Proof. reflexivity. Qed.

Example pton_bad_field : inet_pton "10.0.0.256" = None.
Proof. reflexivity. Qed.

Example pton_short : inet_pton "10.0.0" = None.
Proof. reflexivity. Qed.

Example htons_80 : htons 80 = 20480.
Proof. reflexivity. Qed.

Example sio0_fields : sio0 = Sio 3 SIO_NONBLOCK 1 3.
Proof. reflexivity. Qed.

Example send_three_bytes :
  sio_send sio0 3 (boot [moves 1; would_block; moves 1; moves 2]) =
  Returned 0
    (World [] EAGAIN
       [(send_c 3 0 3 0, moves 1);
        (send_c 3 1 2 0, would_block);
        (select_c 4 None (Some 3) 1, moves 1);
        (send_c 3 1 2 0, moves 2)]).
Proof. reflexivity. Qed.

Example recv_peer_closes_after_five :
  sio_recv sio0 10 (boot [moves 5; moves 0]) =
  Returned (-1)
    (World [] 0 [(recv_c 3 0 10 0, moves 5); (recv_c 3 5 5 0, moves 0)]).
Proof. reflexivity. Qed.


(** Open a non-blocking socket, close it, close it again. *)
Example open_close_close :
  match sio_socket (Sio INV_SOCK SIO_NONBLOCK 1 3)
                   (boot [moves 5; moves 2; moves 0; moves 0; fails 9]) with
  | Returned (v, s1) w1 =>
      match sio_close s1 w1 with
      | Returned s2 w2 =>
          match sio_close s2 w2 with
          | Returned s3 w3 => Some (v, socket s1, socket s2, socket s3, script w3)
          | Awaiting _ => None
          end
      | Awaiting _ => None
      end
  | Awaiting _ => None
  end = Some (0, 5, INV_SOCK, INV_SOCK, []).
Proof. reflexivity. Qed.

(** ** Arithmetic and logs *)

Lemma int_wrap_small (x : Z) :
  - 2 ^ 31 <= x <= INT_MAX -> int_wrap x = x.
Proof.
  unfold int_wrap, INT_MAX. intros H.
  rewrite Z.mod_small; lia.
Qed.

Lemma size_wrap_small (x : Z) :
  0 <= x <= SIZE_MAX -> size_wrap x = x.
Proof.
  unfold size_wrap, SIZE_MAX. intros H.
  apply Z.mod_small. lia.
Qed.

Lemma since_app (w w' : world) (evs : list event) :
  trace w' = trace w ++ evs -> since w w' = evs.
Proof.
  intros H. unfold since. rewrite H.
  rewrite skipn_app, skipn_all, Nat.sub_diag. reflexivity.
Qed.

Lemma since_refl (w : world) : since w w = [].
Proof. apply since_app. rewrite app_nil_r. reflexivity. Qed.

Lemma since_step (w w1 wo : world) (pre : list event) :
  trace w1 = trace w ++ pre ->
  (exists evs, trace wo = trace w1 ++ evs) ->
  since w wo = pre ++ since w1 wo.
Proof.
  intros H1 [evs H2].
  rewrite (since_app w1 wo evs H2).
  apply since_app. rewrite H2, H1, <- app_assoc. reflexivity.
Qed.

(** ** The loop combinator *)

Section WhileLoop.

Context {St A : Type}.
Variable body : St -> M (St + A).

Hypothesis body_consumes :
  forall s w s' w',
    body s w = Returned (inl s') w' ->
    (List.length (script w') < List.length (script w))%nat.


Lemma while_loop_fuel (f1 f2 : nat) :
  forall s w,
    (List.length (script w) < f1)%nat ->
    (List.length (script w) < f2)%nat ->
    while_loop f1 body s w = while_loop f2 body s w.
Proof.
  revert f2; induction f1 as [|f1 IH]; intros f2 s w H1 H2; [lia|].
  destruct f2 as [|f2]; [lia|].
  simpl. destruct (body s w) as [[s'|a] w'|w'] eqn:E; try reflexivity.
  apply body_consumes in E. apply IH; lia.
Qed.

(** The equation of the loop: the fuel is never what stops it. *)
Lemma while_loop_eq (s : St) (w : world) :
  while_loop (enough_for w) body s w =
  match body s w with
  | Returned (inl s') w' => while_loop (enough_for w') body s' w'
  | Returned (inr a) w' => Returned a w'
  | Awaiting w' => Awaiting w'
  end.
Proof.
  unfold enough_for at 1.
  change (while_loop (S (List.length (script w))) body s w)
    with (match body s w with
          | Returned (inl s') w' =>
              while_loop (List.length (script w)) body s' w'
          | Returned (inr a) w' => Returned a w'
          | Awaiting w' => Awaiting w'
          end).
  destruct (body s w) as [[s'|a] w'|w'] eqn:E; try reflexivity.
  pose proof (body_consumes _ _ _ _ E).
  apply while_loop_fuel; unfold enough_for; lia.
Qed.

End WhileLoop.

(** ** One pass through a transfer loop, case by case *)

Section Body.

Variables (sio : socketio) (len : Z).


Lemma body_done d st w :
  len <= total_bytes st ->
  xfer_body d sio len st w = Returned (inr 0) w.
Proof.
  intros H. destruct d; simpl; unfold send_body, recv_body;
    (destruct (total_bytes st <? len) eqn:E; [apply Z.ltb_lt in E; lia|]);
    reflexivity.
Qed.

Lemma body_awaits d st w :
  total_bytes st < len -> script w = [] ->
  xfer_body d sio len st w = Awaiting w.
Proof.
  intros H Hs. apply Z.ltb_lt in H.
  body_cases d w; rewrite H; reflexivity.
Qed.

Lemma body_moves d st w r rest :
  total_bytes st < len -> script w = r :: rest ->
  rv r <> SOCK_ERR -> (d = Rx -> 0 < rv r) ->
  xfer_body d sio len st w =
  Returned (inl (Xfer (size_wrap (total_bytes st + rv r)) 0))
           (answered (request d sio len st) r w).
Proof.
  intros H Hs Hr Hp. apply Z.ltb_lt in H. apply Z.eqb_neq in Hr.
  unfold request.
  body_cases d w; rewrite H; cbn [script errno trace]; rewrite Hr; try reflexivity.
  specialize (Hp eq_refl). apply Z.gtb_lt in Hp. rewrite Hp. reflexivity.
Qed.

Lemma body_fatal d st w r rest :
  total_bytes st < len -> script w = r :: rest ->
  rv r = SOCK_ERR -> is_again (errno_after r w) = false ->
  xfer_body d sio len st w = Returned (inr (-1)) (answered (request d sio len st) r w).
Proof.
  intros H Hs Hr He. apply Z.ltb_lt in H. apply Z.eqb_eq in Hr.
  unfold request.
  body_cases d w; rewrite H; cbn [script errno trace]; rewrite Hr; cbn [script errno trace]; rewrite He; reflexivity.
Qed.

Lemma body_stall_awaits d st w r :
  total_bytes st < len -> script w = [r] ->
  rv r = SOCK_ERR -> is_again (errno_after r w) = true ->
  xfer_body d sio len st w = Awaiting (answered (request d sio len st) r w).
Proof.
  intros H Hs Hr He. apply Z.ltb_lt in H. apply Z.eqb_eq in Hr.
  unfold request.
  body_cases d w; rewrite H; cbn [script errno trace]; rewrite Hr; cbn [script errno trace]; rewrite He; reflexivity.
Qed.

Lemma body_stall d st w r r2 rest :
  total_bytes st < len -> script w = r :: r2 :: rest ->
  rv r = SOCK_ERR -> is_again (errno_after r w) = true ->
  xfer_body d sio len st w =
  Returned (if int_wrap (nfails st + 1) >=? maxnfails sio
            then inr (-1)
            else inl (Xfer (total_bytes st) (int_wrap (nfails st + 1))))
           (answered (wait_call d sio) r2 (answered (request d sio len st) r w)).
Proof.
  intros H Hs Hr He. apply Z.ltb_lt in H. apply Z.eqb_eq in Hr.
  unfold request.
  body_cases d w; rewrite H; cbn [script errno trace]; rewrite Hr;
    cbn [script errno trace]; rewrite He; unfold bind, platform;
    cbn [script errno trace];
    destruct (rv r2 =? 1);
    destruct (int_wrap (nfails st + 1) >=? maxnfails sio); reflexivity.
Qed.

Lemma recv_body_closed d st w r rest :
  d = Rx ->
  total_bytes st < len -> script w = r :: rest ->
  rv r <> SOCK_ERR -> rv r <= 0 ->
  xfer_body d sio len st w = Returned (inr (-1)) (answered (request d sio len st) r w).
Proof.
  intros Hd H Hs Hr Hz. apply Z.ltb_lt in H. apply Z.eqb_neq in Hr.
  unfold request. subst d.
  destruct w as [sc e0 tr]; cbn [script] in *; subst.
  unfold xfer_body, xfer_call, recv_body, bind, platform, ret, answered.
  cbn [script errno trace tl].
  rewrite H; cbn [script errno trace]; rewrite Hr.
  destruct (rv r >? 0) eqn:G; [apply Z.gtb_lt in G; lia|]. reflexivity.
Qed.

Lemma xfer_body_consumes d st w st' w' :
  xfer_body d sio len st w = Returned (inl st') w' ->
  (List.length (script w') < List.length (script w))%nat.
Proof.
  destruct (Z_lt_le_dec (total_bytes st) len) as [Hlt|Hge];
    [|rewrite body_done by assumption; discriminate].
  destruct (script w) as [|r rest] eqn:Hs;
    [rewrite body_awaits by assumption; discriminate|].
  destruct (Z.eq_dec (rv r) SOCK_ERR) as [Hr|Hr].
  - destruct (is_again (errno_after r w)) eqn:He.
    + destruct rest as [|r2 rest].
      * rewrite (body_stall_awaits _ _ _ r) by assumption. discriminate.
      * rewrite (body_stall _ _ _ r r2 rest) by assumption.
        intros E. inversion E; subst. simpl. rewrite Hs. simpl. lia.
    + rewrite (body_fatal _ _ _ r rest) by assumption. discriminate.
  - destruct d eqn:Hd.
    + rewrite (body_moves _ _ _ r rest) by (assumption || discriminate).
      intros E. inversion E; subst. simpl. rewrite Hs. simpl. lia.
    + destruct (Z_lt_le_dec 0 (rv r)) as [Hp|Hp].
      * rewrite (body_moves _ _ _ r rest) by (assumption || (intros; assumption)).
        intros E. inversion E; subst. simpl. rewrite Hs. simpl. lia.
      * rewrite (recv_body_closed _ _ _ r rest) by (assumption || reflexivity).
        discriminate.
Qed.

(** The equation of the transfer loops. *)
Lemma xfer_loop_eq d st w :
  xfer_loop d sio len st w =
  match xfer_body d sio len st w with
  | Returned (inl st') w' => xfer_loop d sio len st' w'
  | Returned (inr v) w' => Returned v w'
  | Awaiting w' => Awaiting w'
  end.
Proof.
  pose proof (xfer_body_consumes d) as Hc.
  destruct d; simpl in *; unfold send_loop, recv_loop;
    apply while_loop_eq; assumption.
Qed.

End Body.


Lemma xfer_body_pass d sio len st w :
  pass d sio len st w (xfer_body d sio len st w).
Proof.
  destruct (Z_lt_le_dec (total_bytes st) len) as [Hlt|Hge];
    [|rewrite body_done by assumption; constructor; assumption].
  destruct (script w) as [|r rest] eqn:Hs;
    [rewrite body_awaits by assumption; constructor; assumption|].
  destruct (Z.eq_dec (rv r) SOCK_ERR) as [Hr|Hr].
  - destruct (is_again (errno_after r w)) eqn:He.
    + destruct rest as [|r2 rest].
      * rewrite (body_stall_awaits _ _ _ _ _ r) by assumption.
        constructor; assumption.
      * rewrite (body_stall _ _ _ _ _ r r2 rest) by assumption.
        econstructor; eassumption.
    + rewrite (body_fatal _ _ _ _ _ r rest) by assumption.
      econstructor; eassumption.
  - destruct (Z_lt_le_dec 0 (rv r)) as [Hp|Hp].
    + rewrite (body_moves _ _ _ _ _ r rest) by (assumption || (intros; assumption)).
      econstructor; try eassumption. intros; assumption.
    + destruct d.
      * rewrite (body_moves _ _ _ _ _ r rest) by (assumption || discriminate).
        econstructor; try eassumption. discriminate.
      * rewrite (recv_body_closed _ _ _ _ _ r rest) by (assumption || reflexivity).
        eapply pass_closed; try eassumption. reflexivity.
Qed.

Lemma sio_xfer_is_loop d sio len w :
  sio_xfer d sio len w = xfer_loop d sio len (Xfer 0 0) w.
Proof. destruct d; reflexivity. Qed.

(** ** Rounds of stalls and progress *)


Lemma advances_nonneg d n : advances d n -> 0 <= n.
Proof. destruct d; cbn; lia. Qed.

Lemma progress_nonneg d rds :
  Forall (fun rd : round => advances d (snd rd)) rds -> 0 <= progress rds.
Proof.
  induction 1 as [|rd l Hrd _ IH]; cbn; [lia|].
  apply advances_nonneg in Hrd. unfold progress in IH. lia.
Qed.

Lemma in_flight_short d len rds :
  forall total,
    Forall (fun rd : round => advances d (snd rd)) rds ->
    total + progress rds < len ->
    in_flight len total rds.
Proof.
  induction rds as [|rd rds IH]; intros total Ha Hlt; [exact I|].
  apply Forall_cons_iff in Ha. destruct Ha as [Ha1 Ha2].
  pose proof (advances_nonneg _ _ Ha1).
  pose proof (progress_nonneg _ _ Ha2).
  unfold progress in *. cbn [map fold_right] in Hlt.
  cbn [in_flight]. split; [lia|]. apply IH; [assumption|lia].
Qed.

Lemma in_flight_exact len rds :
  forall total,
    Forall (fun rd : round => 0 < snd rd) rds ->
    total + progress rds <= len ->
    in_flight len total rds.
Proof.
  induction rds as [|rd rds IH]; intros total Ha Hle; [exact I|].
  apply Forall_cons_iff in Ha. destruct Ha as [Ha1 Ha2].
  assert (0 <= progress rds).
  { apply (progress_nonneg Rx). exact Ha2. }
  unfold progress in *. cbn [map fold_right] in Hle.
  cbn [in_flight]. split; [lia|]. apply IH; [assumption|lia].
Qed.

Lemma positive_advances d rds :
  Forall (fun rd : round => 0 < snd rd) rds ->
  Forall (fun rd : round => advances d (snd rd)) rds.
Proof.
  apply Forall_impl. intros rd H. destruct d; cbn; lia.
Qed.

Section Rounds.

Variables (d : direction) (sio : socketio) (len : Z).
Hypothesis len_size_t : 0 <= len <= SIZE_MAX.
Hypothesis budget_int : maxnfails sio <= INT_MAX.


Lemma stalls_run waits :
  forall total k rest e tr,
    total < len -> 0 <= k ->
    k + Z.of_nat (List.length waits) < maxnfails sio ->
    exists w',
      script w' = rest /\
      trace w' = tr ++ stall_log d sio len total waits /\
      xfer_loop d sio len (Xfer total k) (World (stalls waits ++ rest) e tr) =
      xfer_loop d sio len (Xfer total (k + Z.of_nat (List.length waits))) w'.
Proof.
  induction waits as [|s waits IH]; intros total k rest e tr Ht Hk Hb.
  - exists (World rest e tr). cbn [List.length Z.of_nat stalls flat_map app].
    rewrite Z.add_0_r. cbn [stall_log flat_map script trace].
    rewrite app_nil_r. repeat split; reflexivity.
  - cbn [List.length] in Hb. rewrite Nat2Z.inj_succ in Hb.
    cbn [stalls flat_map]. fold (stalls waits).
    rewrite xfer_loop_eq.
    rewrite (body_stall sio len d _ _ would_block s (stalls waits ++ rest))
      by (assumption || reflexivity).
    cbn [nfails total_bytes].
    rewrite int_wrap_small by (unfold INT_MAX in *; lia).
    destruct (k + 1 >=? maxnfails sio) eqn:G; [apply Z.geb_le in G; lia|].
    destruct (IH total (k + 1) rest
                (errno_after s (answered (request d sio len (Xfer total k))
                                         would_block
                                         (World (would_block :: s :: stalls waits ++ rest) e tr)))
                ((tr ++ [(request d sio len (Xfer total k), would_block)])
                   ++ [(wait_call d sio, s)]))
      as (w' & Hs & Htr & Hl); try lia.
    exists w'. split; [assumption|]. split.
    + rewrite Htr. cbn [stall_log flat_map]. fold (stall_log d sio len total waits).
      rewrite <- !app_assoc. reflexivity.
    + cbn [List.length]. rewrite Nat2Z.inj_succ.
      replace (k + Z.succ (Z.of_nat (List.length waits)))
        with (k + 1 + Z.of_nat (List.length waits)) by lia.
      rewrite <- Hl. reflexivity.
Qed.

(** After the last stall the budget allows, the loop returns -1. *)
Lemma stalls_exhaust waits :
  forall total k rest e tr,
    total < len -> 0 <= k ->
    (0 < List.length waits)%nat ->
    k + Z.of_nat (List.length waits) = maxnfails sio ->
    exists w',
      script w' = rest /\
      trace w' = tr ++ stall_log d sio len total waits /\
      xfer_loop d sio len (Xfer total k) (World (stalls waits ++ rest) e tr) =
      Returned (-1) w'.
Proof.
  intros total k rest e tr Ht Hk Hpos Hb.
  destruct (exists_last (l := waits)) as (front & s & ->);
    [intros ->; cbn in Hpos; lia|].
  rewrite length_app in Hb. cbn [List.length] in Hb.
  unfold stalls. rewrite flat_map_app. fold (stalls front).
  cbn [flat_map]. rewrite <- !app_assoc. cbn [app].
  destruct (stalls_run front total k (would_block :: s :: rest) e tr)
    as (w1 & Hs1 & Htr1 & Hl1); try lia.
  rewrite Hl1. rewrite xfer_loop_eq.
  rewrite (body_stall sio len d _ _ would_block s rest)
    by (assumption || reflexivity).
  cbn [nfails total_bytes].
  rewrite int_wrap_small by (unfold INT_MAX in *; lia).
  destruct (_ >=? maxnfails sio) eqn:G;
    [|rewrite Z.geb_leb in G; apply Z.leb_gt in G; lia].
  eexists. split; [|split; [|reflexivity]].
  - cbn [answered script]. rewrite Hs1. reflexivity.
  - cbn [answered trace]. rewrite Htr1.
    unfold stall_log. rewrite flat_map_app. cbn [flat_map].
    rewrite <- !app_assoc. reflexivity.
Qed.

(** Rounds that advance within the budget leave the loop running with
    the failure count back at zero. *)
Lemma rounds_run rds :
  forall total rest e tr,
    0 <= total ->
    Forall (within_budget sio) rds ->
    Forall (fun rd => advances d (snd rd)) rds ->
    in_flight len total rds ->
    total + progress rds <= len ->
    exists w',
      script w' = rest /\
      trace w' = tr ++ rounds_log d sio len total rds /\
      xfer_loop d sio len (Xfer total 0)
                (World (rounds_script rds ++ rest) e tr) =
      xfer_loop d sio len (Xfer (total + progress rds) 0) w'.
Proof.
  induction rds as [|[waits n] rds IH]; intros total rest e tr H0 Hb Ha Hf Hle.
  - exists (World rest e tr). cbn. rewrite Z.add_0_r, app_nil_r.
    repeat split; reflexivity.
  - inversion Hb as [|? ? Hb1 Hb2]; subst.
    inversion Ha as [|? ? Ha1 Ha2]; subst.
    destruct Hf as [Hlt Hf]. cbn [snd fst] in *.
    unfold within_budget in Hb1. cbn [fst] in Hb1.
    assert (Hn : 0 <= n) by (destruct d; cbn in Ha1; lia).
    assert (Hrest : 0 <= progress rds).
    { clear - Ha2. induction Ha2 as [|rd l Hrd _ IHl]; cbn; [lia|].
      unfold progress in IHl. destruct d; cbn in Hrd; lia. }
    unfold progress in Hle |- *. cbn [map fold_right snd] in Hle |- *.
    fold (progress rds) in Hle |- *.
    cbn [rounds_script flat_map]. fold (rounds_script rds).
    unfold round_script. cbn [fst snd]. rewrite <- !app_assoc. cbn [app].
    destruct (stalls_run waits total 0 (moves n :: rounds_script rds ++ rest) e tr)
      as (w1 & Hs1 & Htr1 & Hl1); try lia.
    rewrite Hl1. rewrite xfer_loop_eq.
    rewrite (body_moves sio len d _ _ (moves n) (rounds_script rds ++ rest));
      try assumption.
    + cbn [total_bytes rv moves].
      rewrite size_wrap_small by lia.
      destruct w1 as [sc1 e1 tr1]. cbn [script trace] in Hs1, Htr1. subst sc1 tr1.
      unfold answered. cbn [script errno trace tl rerrno moves].
      destruct (IH (total + n) rest e1
                  ((tr ++ stall_log d sio len total waits)
                     ++ [(request d sio len
                                  (Xfer total (0 + Z.of_nat (List.length waits))),
                          moves n)]))
        as (w' & Hs & Htr & Hl); try assumption; try lia.
      exists w'. split; [assumption|]. split.
      * rewrite Htr. cbn [rounds_log fst snd]. rewrite <- !app_assoc. reflexivity.
      * rewrite Hl. rewrite Z.add_assoc. reflexivity.
    + cbn. unfold SOCK_ERR. lia.
    + intros ->. cbn in Ha1. cbn. assumption.
Qed.

(** Rounds that each move at least one byte and add up to [len] end the
    transfer with 0. *)
Lemma fair_rounds_complete rds rest e tr :
  Forall (within_budget sio) rds ->
  Forall (fun rd : round => 0 < snd rd) rds ->
  progress rds = len ->
  exists w',
    sio_xfer d sio len (World (rounds_script rds ++ rest) e tr) = Returned 0 w' /\
    script w' = rest /\
    trace w' = tr ++ rounds_log d sio len 0 rds.
Proof.
  intros Hb Ha Hp.
  rewrite sio_xfer_is_loop.
  destruct (rounds_run rds 0 rest e tr)
    as (w1 & Hs1 & Htr1 & Hl1); try assumption; try lia.
  - apply positive_advances. assumption.
  - apply in_flight_exact; [assumption|lia].
  - rewrite Hl1, xfer_loop_eq, body_done by (cbn [total_bytes]; lia).
    exists w1. repeat split; assumption.
Qed.

End Rounds.

(** The run the specification describes: would-block, would-block, one
    byte, then [maxnfails - 1] would-blocks, and the rest of the bytes.
    It needs a budget of at least three, as the first two would-blocks
    must not use it up. *)
Lemma spec_run_completes d sio len s1 s2 waits rest e tr :
  2 <= len <= SIZE_MAX ->
  3 <= maxnfails sio <= INT_MAX ->
  Z.of_nat (List.length waits) = maxnfails sio - 1 ->
  exists w',
    sio_xfer d sio len
             (World (stalls [s1; s2] ++ [moves 1]
                     ++ stalls waits ++ [moves (len - 1)] ++ rest) e tr) =
    Returned 0 w' /\
    script w' = rest.
Proof.
  intros Hlen Hmax Hw.
  destruct (fair_rounds_complete d sio len ltac:(lia) (proj2 Hmax)
              [([s1; s2], 1); (waits, len - 1)] rest e tr)
    as (w' & Hr & Hs & _).
  - repeat constructor; unfold within_budget; cbn [fst List.length]; lia.
  - repeat constructor; cbn [snd]; lia.
  - unfold progress. cbn [map fold_right snd]. lia.
  - exists w'. split; [|exact Hs].
    rewrite <- Hr. do 2 f_equal.
    unfold rounds_script, round_script. cbn [flat_map fst snd].
    rewrite app_nil_r, <- !app_assoc. reflexivity.
Qed.


(** With a budget of zero or less the first would-block already ends the
    transfer. *)
Lemma no_budget_first_would_block d sio len s rest e tr :
  0 < len -> maxnfails sio <= 0 ->
  exists w',
    sio_xfer d sio len (World (would_block :: s :: rest) e tr) = Returned (-1) w' /\
    script w' = rest.
Proof.
  intros Hlen Hmax. rewrite sio_xfer_is_loop, xfer_loop_eq.
  rewrite (body_stall sio len d _ _ would_block s rest)
    by (assumption || reflexivity).
  cbn [nfails]. change (int_wrap (0 + 1)) with 1.
  destruct (1 >=? maxnfails sio) eqn:G;
    [|rewrite Z.geb_leb in G; apply Z.leb_gt in G; lia].
  eexists. split; reflexivity.
Qed.

(** ** The invariant of the transfer loops *)

Section Runs.

Variables (d : direction) (sio : socketio) (len : Z).


Lemma xfer_loop_extends_trace (n : nat) :
  forall st w,
    (List.length (script w) < n)%nat ->
    exists evs, trace (world_of (xfer_loop d sio len st w)) = trace w ++ evs.
Proof.
  induction n as [|n IH]; intros st w Hn; [lia|].
  rewrite xfer_loop_eq.
  destruct (xfer_body_pass d sio len st w)
    as [ | | r rest Hlt Hs | r rest Hd Hlt Hs | r rest Hlt Hs | r Hlt Hs
         | r r2 rest Hlt Hs];
    cbn [world_of].
  - exists []. rewrite app_nil_r. reflexivity.
  - exists []. rewrite app_nil_r. reflexivity.
  - destruct (IH (Xfer (size_wrap (total_bytes st + rv r)) 0)
                (answered (request d sio len st) r w)) as [evs He].
    + cbn [answered script]. rewrite Hs in *. cbn [tl List.length] in *. lia.
    + rewrite He. cbn [answered trace]. rewrite <- app_assoc. eexists. reflexivity.
  - eexists. reflexivity.
  - eexists. reflexivity.
  - eexists. reflexivity.
  - destruct (int_wrap (nfails st + 1) >=? maxnfails sio).
    + cbn [world_of answered trace]. rewrite <- app_assoc. eexists. reflexivity.
    + destruct (IH (Xfer (total_bytes st) (int_wrap (nfails st + 1)))
                  (answered (wait_call d sio) r2
                            (answered (request d sio len st) r w)))
        as [evs He].
      * cbn [answered script]. rewrite Hs in *. cbn [tl List.length] in *. lia.
      * rewrite He. cbn [answered trace]. rewrite <- !app_assoc.
        eexists. reflexivity.
Qed.

Hypothesis len_size_t : 0 <= len <= SIZE_MAX.


Lemma xfer_count_request st :
  xfer_count (request d sio len st) = Some (size_wrap (len - total_bytes st)).
Proof. destruct d; reflexivity. Qed.

Lemma tracks_request st r evs :
  0 <= total_bytes st < len ->
  total_bytes st + moved r <= len ->
  tracks d sio len (total_bytes st + moved r) evs ->
  tracks d sio len (total_bytes st) ((request d sio len st, r) :: evs).
Proof.
  intros Hst Hm Ht. cbn [tracks]. rewrite xfer_count_request.
  split; [unfold request; rewrite size_wrap_small by lia; reflexivity|].
  split; [assumption|]. split; assumption.
Qed.

Lemma tracks_wait total r evs :
  tracks d sio len total evs ->
  tracks d sio len total ((wait_call d sio, r) :: evs).
Proof. intros Ht. exact Ht. Qed.

Lemma transferred_request st r evs :
  transferred ((request d sio len st, r) :: evs) = moved r + transferred evs.
Proof. cbn [transferred]. rewrite xfer_count_request. reflexivity. Qed.

Lemma moved_failed r : rv r = SOCK_ERR -> moved r = 0.
Proof. intros H. unfold moved. rewrite H. reflexivity. Qed.

Lemma moved_ok r : rv r <> SOCK_ERR -> moved r = rv r.
Proof.
  intros H. unfold moved.
  destruct (rv r =? SOCK_ERR) eqn:G; [|reflexivity].
  apply Z.eqb_eq in G. contradiction.
Qed.

Lemma honours_request st r :
  0 <= total_bytes st < len ->
  honours (request d sio len st, r) ->
  rv r = SOCK_ERR \/ 0 <= rv r <= len - total_bytes st.
Proof.
  intros Hst H. unfold honours in H. cbn [fst snd] in H.
  rewrite xfer_count_request, size_wrap_small in H by lia. exact H.
Qed.

(** The invariant of the loops, read off the log. *)
Lemma xfer_loop_tracks (n : nat) :
  forall st w,
    (List.length (script w) < n)%nat ->
    0 <= total_bytes st <= len ->
    let o := xfer_loop d sio len st w in
    Forall honours (since w (world_of o)) ->
    tracks d sio len (total_bytes st) (since w (world_of o)) /\
    (forall w', o = Returned 0 w' ->
                total_bytes st + transferred (since w (world_of o)) = len).
Proof.
  induction n as [|n IH]; intros st w Hn Hst; [lia|].
  cbv zeta. rewrite xfer_loop_eq.
  destruct (xfer_body_pass d sio len st w)
    as [ Hge | Hlt Hs | r rest Hlt Hs Hr Hp | r rest Hd Hlt Hs Hr Hz
         | r rest Hlt Hs Hr He | r Hlt Hs Hr He | r r2 rest Hlt Hs Hr He ].
  - (* the loop is over *)
    cbn [world_of]. rewrite since_refl. intros _. cbn. split; [lia|].
    intros _ _. lia.
  - cbn [world_of]. rewrite since_refl. intros _. cbn. split; [lia|].
    intros w' E. discriminate.
  - (* bytes moved *)
    set (st1 := Xfer (size_wrap (total_bytes st + rv r)) 0).
    set (w1 := answered (request d sio len st) r w).
    assert (Hlen1 : (List.length (script w1) < n)%nat).
    { subst w1. cbn [answered script]. rewrite Hs in *.
      cbn [tl List.length] in *. lia. }
    rewrite (since_step w w1 _ [(request d sio len st, r)]);
      [|reflexivity|eapply xfer_loop_extends_trace; eassumption].
    cbn [app]. intros Hh. apply Forall_cons_iff in Hh. destruct Hh as [Hev Hh'].
    apply honours_request in Hev; [|lia].
    destruct Hev as [Hev|Hev]; [contradiction|].
    pose proof (moved_ok r Hr) as Hm.
    assert (Hst1 : total_bytes st1 = total_bytes st + rv r).
    { subst st1. cbn [total_bytes]. apply size_wrap_small. lia. }
    destruct (IH st1 w1 Hlen1) as [Ht Hd]; [lia|exact Hh'|].
    rewrite Hst1 in Ht, Hd. rewrite transferred_request, Hm.
    split.
    + apply tracks_request; rewrite ?Hm; try lia. exact Ht.
    + intros w' E. specialize (Hd w' E). lia.
  - (* receive: the peer has closed *)
    cbn [world_of].
    rewrite (since_app _ _ [(request d sio len st, r)]) by reflexivity.
    intros Hh. apply Forall_cons_iff in Hh. destruct Hh as [Hev Hh'].
    apply honours_request in Hev; [|lia].
    destruct Hev as [Hev|Hev]; [contradiction|].
    pose proof (moved_ok r Hr) as Hm.
    split; [|intros w' E; discriminate].
    apply tracks_request; rewrite ?Hm; try lia. cbn. lia.
  - (* fatal error *)
    cbn [world_of].
    rewrite (since_app _ _ [(request d sio len st, r)]) by reflexivity.
    intros _. pose proof (moved_failed r Hr) as Hm.
    split; [|intros w' E; discriminate].
    apply tracks_request; rewrite ?Hm; try lia. cbn. lia.
  - (* would-block, and the wait has not been answered *)
    cbn [world_of].
    rewrite (since_app _ _ [(request d sio len st, r)]) by reflexivity.
    intros _. pose proof (moved_failed r Hr) as Hm.
    split; [|intros w' E; discriminate].
    apply tracks_request; rewrite ?Hm; try lia. cbn. lia.
  - (* would-block and wait *)
    set (w1 := answered (wait_call d sio) r2
                        (answered (request d sio len st) r w)).
    pose proof (moved_failed r Hr) as Hm.
    assert (Hlen1 : (List.length (script w1) < n)%nat).
    { subst w1. cbn [answered script]. rewrite Hs in *.
      cbn [tl List.length] in *. lia. }
    assert (Htr1 : trace w1 = trace w ++ [(request d sio len st, r);
                                          (wait_call d sio, r2)]).
    { subst w1. cbn [answered trace]. rewrite <- app_assoc. reflexivity. }
    destruct (int_wrap (nfails st + 1) >=? maxnfails sio).
    + cbn [world_of]. rewrite (since_app _ _ _ Htr1). intros _.
      split; [|intros w' E; discriminate].
      apply tracks_request; rewrite ?Hm; try lia.
      apply tracks_wait. cbn. lia.
    + rewrite (since_step w w1 _ _ Htr1);
        [|eapply xfer_loop_extends_trace; eassumption].
      cbn [app]. intros Hh.
      apply Forall_cons_iff in Hh. destruct Hh as [_ Hh1].
      apply Forall_cons_iff in Hh1. destruct Hh1 as [_ Hh2].
      destruct (IH (Xfer (total_bytes st) (int_wrap (nfails st + 1))) w1 Hlen1)
        as [Ht Hd]; [cbn [total_bytes]; lia|exact Hh2|].
      cbn [total_bytes] in Ht, Hd.
      rewrite transferred_request, Hm.
      split.
      * apply tracks_request; rewrite ?Hm, ?Z.add_0_r; try lia.
        apply tracks_wait. exact Ht.
      * intros w' E. specialize (Hd w' E).
        cbn [transferred wait_call xfer_count]. lia.
Qed.

End Runs.


Lemma tracks_in_bounds d sio len evs :
  forall total, tracks d sio len total evs -> Forall (in_bounds len) evs.
Proof.
  induction evs as [|[c r] evs IH]; intros total Ht; [constructor|].
  cbn [tracks] in Ht.
  destruct (xfer_count c) eqn:Hc.
  - destruct Ht as (Hcall & Hrange & Hm & Ht).
    constructor; [|eapply IH; eassumption].
    unfold in_bounds. cbn [fst snd]. rewrite Hcall.
    destruct d; cbn [xfer_call]; lia.
  - constructor; [|eapply IH; eassumption].
    unfold in_bounds. cbn [fst].
    destruct c; try exact I; discriminate.
Qed.

(** Whatever the platform does, the transfer functions return 0 or -1. *)
Lemma xfer_loop_returns d sio len (n : nat) :
  forall st w v w',
    (List.length (script w) < n)%nat ->
    xfer_loop d sio len st w = Returned v w' -> v = 0 \/ v = -1.
Proof.
  induction n as [|n IH]; intros st w v w' Hn; [lia|].
  rewrite xfer_loop_eq.
  destruct (xfer_body_pass d sio len st w)
    as [ Hge | Hlt Hs | r rest Hlt Hs Hr Hp | r rest Hd Hlt Hs Hr Hz
         | r rest Hlt Hs Hr He | r Hlt Hs Hr He | r r2 rest Hlt Hs Hr He ];
    try (intros E; inversion E; subst; auto; fail).
  - apply IH. cbn [answered script]. rewrite Hs in *. cbn [tl List.length] in *. lia.
  - destruct (int_wrap (nfails st + 1) >=? maxnfails sio).
    + intros E; inversion E; subst; auto.
    + apply IH. cbn [answered script]. rewrite Hs in *.
      cbn [tl List.length] in *. lia.
Qed.

(** ** Loop heads *)

Lemma reaches_same_loop d sio len st w st' w' :
  reaches d sio len st w st' w' ->
  xfer_loop d sio len st w = xfer_loop d sio len st' w'.
Proof.
  induction 1 as [|st w st1 w1 st2 w2 Hb _ IH]; [reflexivity|].
  rewrite xfer_loop_eq, Hb. exact IH.
Qed.

(** Stalls, fewer than the budget allows, after rounds that moved
    something: the loop is still running, with the stalls counted. *)
Lemma rounds_then_stalls d sio len rds waits rest e tr :
  0 <= len <= SIZE_MAX ->
  maxnfails sio <= INT_MAX ->
  Forall (within_budget sio) rds ->
  Forall (fun rd : round => advances d (snd rd)) rds ->
  progress rds < len ->
  Z.of_nat (List.length waits) < maxnfails sio ->
  exists w',
    script w' = rest /\
    trace w' = tr ++ rounds_log d sio len 0 rds
                  ++ stall_log d sio len (progress rds) waits /\
    xfer_loop d sio len (Xfer 0 0)
              (World (rounds_script rds ++ stalls waits ++ rest) e tr) =
    xfer_loop d sio len
              (Xfer (progress rds) (Z.of_nat (List.length waits))) w'.
Proof.
  intros Hlen Hmax Hb Ha Hp Hw.
  pose proof (progress_nonneg d rds Ha) as Hnn.
  destruct (rounds_run d sio len Hlen Hmax rds 0 (stalls waits ++ rest) e tr)
    as (w1 & Hs1 & Htr1 & Hl1); try assumption; try lia.
  { apply (in_flight_short d); [assumption|lia]. }
  destruct w1 as [sc1 e1 tr1]. cbn [script trace] in Hs1, Htr1. subst sc1 tr1.
  destruct (stalls_run d sio len Hmax waits (progress rds) 0 rest e1
                       (tr ++ rounds_log d sio len 0 rds))
    as (w2 & Hs2 & Htr2 & Hl2); try lia.
  exists w2. split; [exact Hs2|]. split.
  - rewrite Htr2, <- app_assoc. reflexivity.
  - rewrite Hl1, Z.add_0_l, Hl2, Z.add_0_l. reflexivity.
Qed.

(** ** The claims *)

(** *** sio_send and sio_recv *)

(** C1.  When [sio_send] or [sio_recv] returns 0, the bytes the platform
    reported as transferred during the call add up to exactly [len].  The
    platform is taken to keep the contract of [send] and [recv]: no call
    transfers more than it was asked for. *)
Theorem sio_xfer_success_is_complete :
  forall d sio len w w',
    0 <= len <= SIZE_MAX ->
    sio_xfer d sio len w = Returned 0 w' ->
    Forall honours (since w w') ->
    transferred (since w w') = len.
Proof.
  intros d sio len w w' Hlen Hret Hh.
  rewrite sio_xfer_is_loop in Hret.
  destruct (xfer_loop_tracks d sio len Hlen (S (List.length (script w)))
                             (Xfer 0 0) w) as [_ Hd].
  - lia.
  - cbn [total_bytes]. lia.
  - rewrite Hret. exact Hh.
  - specialize (Hd w' Hret). rewrite Hret in Hd. cbn [world_of total_bytes] in Hd.
    lia.
Qed.

Lemma sio_xfer_success_is_complete_witness :
  transferred
    (since (boot [moves 1; would_block; moves 1; moves 2])
           (World [] EAGAIN
              [(send_c 3 0 3 0, moves 1);
               (send_c 3 1 2 0, would_block);
               (select_c 4 None (Some 3) 1, moves 1);
               (send_c 3 1 2 0, moves 2)])) = 3.
Proof.
  apply (sio_xfer_success_is_complete Tx sio0 3
           (boot [moves 1; would_block; moves 1; moves 2])).
  - unfold SIZE_MAX. lia.
  - reflexivity.
  - vm_compute since. repeat constructor; unfold honours; cbn; lia.
Defined.

(** C2.  At any point of a transfer where the failure count is zero (at
    the start, or after rounds that each moved something), [maxnfails]
    would-block replies in a row make the call return -1: it returns right
    after the wait that follows the last of them, with nothing more asked
    of the platform. *)
Theorem consecutive_would_blocks_time_out :
  forall d sio len rds waits rest e tr,
    0 <= len <= SIZE_MAX ->
    1 <= maxnfails sio <= INT_MAX ->
    Forall (within_budget sio) rds ->
    Forall (fun rd : round => advances d (snd rd)) rds ->
    progress rds < len ->
    Z.of_nat (List.length waits) = maxnfails sio ->
    let w := World (rounds_script rds ++ stalls waits ++ rest) e tr in
    exists w',
      sio_xfer d sio len w = Returned (-1) w' /\
      script w' = rest /\
      since w w' = rounds_log d sio len 0 rds
                   ++ stall_log d sio len (progress rds) waits.
Proof.
  intros d sio len rds waits rest e tr Hlen Hmax Hb Ha Hp Hw w. subst w.
  rewrite sio_xfer_is_loop.
  destruct (rounds_run d sio len Hlen (proj2 Hmax) rds 0 (stalls waits ++ rest) e tr)
    as (w1 & Hs1 & Htr1 & Hl1); try assumption; try lia.
  - apply (in_flight_short d); [assumption|lia].
  - rewrite Hl1, Z.add_0_l.
    destruct w1 as [sc1 e1 tr1]. cbn [script trace] in Hs1, Htr1. subst sc1 tr1.
    destruct (stalls_exhaust d sio len (proj2 Hmax) waits
                             (progress rds) 0 rest e1
                             (tr ++ rounds_log d sio len 0 rds))
      as (w2 & Hs2 & Htr2 & Hl2); try lia.
    exists w2. split; [exact Hl2|]. split; [exact Hs2|].
    apply since_app. cbn [trace]. rewrite Htr2, <- app_assoc. reflexivity.
Qed.

Lemma consecutive_would_blocks_time_out_witness :
  let w := World (rounds_script [([moves 1], 2)]
                  ++ stalls [moves 0; moves 1; moves 0] ++ [moves 5]) 0 [] in
  exists w',
    sio_xfer Tx sio0 7 w = Returned (-1) w' /\
    script w' = [moves 5] /\
    since w w' = rounds_log Tx sio0 7 0 [([moves 1], 2)]
                 ++ stall_log Tx sio0 7 (progress [([moves 1], 2)])
                              [moves 0; moves 1; moves 0].
Proof.
  apply (consecutive_would_blocks_time_out Tx sio0 7 [([moves 1], 2)]
           [moves 0; moves 1; moves 0] [moves 5] 0 []).
  - unfold SIZE_MAX. lia.
  - unfold INT_MAX. cbn. lia.
  - repeat constructor.
  - repeat constructor; cbn; lia.
  - cbn. lia.
  - reflexivity.
Defined.

(** C3.  A reply that moves [n > 0] bytes adds [n] to [total_bytes] and
    puts [nfails] back to 0; so rounds of would-blocks, each round fewer
    than [maxnfails] and ended by a reply that moves at least one byte,
    bring the call to return 0 once the bytes add up to [len]. *)
Theorem progress_resets_failure_budget :
  forall d sio len,
    0 <= len <= SIZE_MAX ->
    maxnfails sio <= INT_MAX ->
    (forall total k r rest e tr,
        0 <= total -> 0 < rv r <= len - total ->
        xfer_body d sio len (Xfer total k) (World (r :: rest) e tr) =
        Returned (inl (Xfer (total + rv r) 0))
                 (World rest (errno_after r (World (r :: rest) e tr))
                        (tr ++ [(xfer_call d (socket sio) total (len - total) 0, r)])))
    /\
    (forall rds rest e tr,
        Forall (within_budget sio) rds ->
        Forall (fun rd : round => 0 < snd rd) rds ->
        progress rds = len ->
        let w := World (rounds_script rds ++ rest) e tr in
        exists w',
          sio_xfer d sio len w = Returned 0 w' /\
          script w' = rest /\
          since w w' = rounds_log d sio len 0 rds).
Proof.
  intros d sio len Hlen Hmax. split.
  - intros total k r rest e tr Ht Hr.
    rewrite (body_moves sio len d _ _ r rest);
      cbn [total_bytes script]; try reflexivity; try lia.
    + rewrite size_wrap_small by lia.
      unfold answered, request, errno_after. cbn [script errno trace tl total_bytes].
      rewrite size_wrap_small by lia. reflexivity.
    + unfold SOCK_ERR. lia.
  - intros rds rest e tr Hb Ha Hp w. subst w.
    destruct (fair_rounds_complete d sio len Hlen Hmax rds rest e tr Hb Ha Hp)
      as (w' & Hr & Hs & Htr).
    exists w'. split; [exact Hr|]. split; [exact Hs|].
    apply since_app. exact Htr.
Qed.

Lemma progress_resets_failure_budget_witness :
  let w := World (rounds_script [([moves 1; moves 1], 1); ([moves 0; moves 0], 1)])
                 0 [] in
  xfer_body Tx sio0 2 (Xfer 0 2) (World [moves 1] 0 []) =
    Returned (inl (Xfer 1 0)) (World [] 0 [(send_c 3 0 2 0, moves 1)]) /\
  exists w',
    sio_xfer Tx sio0 2 w = Returned 0 w' /\
    script w' = [] /\
    since w w' =
      rounds_log Tx sio0 2 0 [([moves 1; moves 1], 1); ([moves 0; moves 0], 1)].
Proof.
  destruct (progress_resets_failure_budget Tx sio0 2) as [Hstep Hrun].
  - unfold SIZE_MAX. lia.
  - unfold INT_MAX. cbn. lia.
  - split.
    + apply (Hstep 0 2 (moves 1) [] 0 []); cbn; lia.
    + apply (Hrun [([moves 1; moves 1], 1); ([moves 0; moves 0], 1)] [] 0 []).
      * repeat constructor.
      * repeat constructor.
      * reflexivity.
Defined.

(** *** sio_connect and is_connected *)

(** A [connect] that does not fail ends [sio_connect] with 0, with no
    wait. *)
Lemma sio_connect_immediate sio host port r rest e tr :
  rv r <> SOCK_ERROR ->
  sio_connect sio host port (World (r :: rest) e tr) =
  Returned 0 (World rest (match rerrno r with Some x => x | None => 0 end)
                    (tr ++ [(connect_call host port, r)])).
Proof.
  intros Hr. apply Z.eqb_neq in Hr.
  unfold sio_connect, bind, set_errno, platform, ret.
  cbn [script errno trace]. rewrite Hr. reflexivity.
Qed.

(** A [connect] that fails with anything but [EINPROGRESS], [EAGAIN]
    included, ends [sio_connect] with -1, with no wait. *)
Lemma sio_connect_other_errno sio host port r rest e tr x :
  rv r = SOCK_ERROR -> rerrno r = Some x -> x <> EINPROGRESS ->
  sio_connect sio host port (World (r :: rest) e tr) =
  Returned (-1) (World rest x (tr ++ [(connect_call host port, r)])).
Proof.
  intros Hr He Hx. apply Z.eqb_eq in Hr. apply Z.eqb_neq in Hx.
  unfold sio_connect, bind, set_errno, platform, get_errno, ret.
  cbn [script errno trace]. rewrite Hr, He.
  cbn [script errno trace]. rewrite Hx. reflexivity.
Qed.


(** C4.  When [connect] fails with [EINPROGRESS], [sio_connect] makes
    exactly one readiness wait, for writing and with the configured
    timeout, and returns 0 exactly when that wait reports the socket ready
    and the pending socket error then reads as zero; otherwise it returns
    -1.  There is no second wait, whatever the replies are. *)
Theorem sio_connect_in_progress_one_wait :
  forall sio host port r_c r_s r_g rest e tr,
    rv r_c = SOCK_ERROR ->
    rerrno r_c = Some EINPROGRESS ->
    let w := World (r_c :: r_s :: r_g :: rest) e tr in
    exists v w',
      sio_connect sio host port w = Returned v w' /\
      (v = 0 <-> rv r_s = 1 /\ pending_error r_g = 0) /\
      (v = 0 \/ v = -1) /\
      since w w' =
        (connect_call host port, r_c)
        :: (wait_call Tx sio, r_s)
        :: (if rv r_s =? 1
            then [(getsockopt_c (socket sio) SOL_SOCKET SO_ERROR, r_g)]
            else []) /\
      script w' = (if rv r_s =? 1 then rest else r_g :: rest).
Proof.
  intros sio host port [rvc ec oc] [rvs es os] [rvg eg og] rest e tr Hrv Herr w.
  cbn [rv rerrno] in Hrv, Herr. subst rvc ec w.
  unfold pending_error, wait_call, connect_call.
  cbn [rv rerrno rout].
  unfold sio_connect, is_connected, sio_select, bind, set_errno, platform,
    get_errno, ret.
  cbn -[int_wrap htons address_field since].
  destruct (rvs =? 1) eqn:Hs; cbn -[int_wrap htons address_field since].
  - apply Z.eqb_eq in Hs.
    destruct og as [v|]; [destruct (v =? 0) eqn:Hg|];
      cbn -[int_wrap htons address_field since];
      eexists; eexists; (split; [reflexivity|]);
      (split; [|split; [|split; [apply since_app; cbn [trace];
                                 rewrite <- !app_assoc; reflexivity
                                |reflexivity]]]); auto.
    + apply Z.eqb_eq in Hg. tauto.
    + apply Z.eqb_neq in Hg. split; [discriminate|tauto].
    + tauto.
  - apply Z.eqb_neq in Hs.
    eexists; eexists; (split; [reflexivity|]);
      (split; [|split; [|split; [apply since_app; cbn [trace];
                                 rewrite <- !app_assoc; reflexivity
                                |reflexivity]]]); auto.
    split; [discriminate|tauto].
Qed.

Lemma sio_connect_in_progress_one_wait_witness :
  exists v w',
    sio_connect sio0 "10.0.0.1" 80
                (World [fails EINPROGRESS; moves 1; stores 0] 0 []) =
      Returned v w' /\
    (v = 0 <-> rv (moves 1) = 1 /\ pending_error (stores 0) = 0) /\
    (v = 0 \/ v = -1) /\
    since (World [fails EINPROGRESS; moves 1; stores 0] 0 []) w' =
      (connect_call "10.0.0.1" 80, fails EINPROGRESS)
      :: (wait_call Tx sio0, moves 1)
      :: (if rv (moves 1) =? 1
          then [(getsockopt_c (socket sio0) SOL_SOCKET SO_ERROR, stores 0)]
          else []) /\
    script w' = (if rv (moves 1) =? 1 then [] else [stores 0]).
Proof.
  exact (sio_connect_in_progress_one_wait sio0 "10.0.0.1" 80
           (fails EINPROGRESS) (moves 1) (stores 0) [] 0 []
           eq_refl eq_refl).
Defined.

(** C5, as the claim states it, fails: "localhost" is no dotted-decimal
    address, yet [sio_connect] calls [connect] (for the all-zero address)
    and, when that call succeeds, returns 0. *)
Lemma sio_connect_unparsed_host_connects :
  inet_pton "localhost" = None /\
  sio_connect sio0 "localhost" 80 (boot [moves 0]) =
    Returned 0
      (World [] 0
         [(connect_c AF_INET (SockAddr AF_INET (htons 80) [0; 0; 0; 0]),
           moves 0)]).
Proof. split; reflexivity. Qed.

(** C5, amended.  A host string that does not parse is not reported: the
    address field keeps the zeroes of [memset], so the call behaves exactly
    as it does for "0.0.0.0"; and whenever the platform answers, the first
    thing [sio_connect] does is the [connect] call for that zero address. *)
Theorem sio_connect_unparsed_host_is_zero_address :
  forall sio host port,
    inet_pton host = None ->
    (forall w, sio_connect sio host port w = sio_connect sio "0.0.0.0" port w) /\
    (forall r rest e tr,
        firstn 1 (since (World (r :: rest) e tr)
                        (world_of (sio_connect sio host port
                                               (World (r :: rest) e tr)))) =
        [(connect_c AF_INET (SockAddr AF_INET (htons port) [0; 0; 0; 0]), r)]).
Proof.
  intros sio host port Hp. split.
  - intros w. unfold sio_connect. rewrite Hp. reflexivity.
  - intros r rest e tr.
    unfold sio_connect. rewrite Hp.
    unfold bind, set_errno, platform, get_errno, ret.
    cbn [script errno trace].
    assert (Hev : forall (o : outcome Z) c,
               (exists evs, trace (world_of o) = (tr ++ [(c, r)]) ++ evs) ->
               firstn 1 (since (World (r :: rest) e tr) (world_of o)) = [(c, r)]).
    { intros o c [evs H]. rewrite (since_app _ _ ([(c, r)] ++ evs)).
      - reflexivity.
      - rewrite H. cbn [trace]. rewrite <- app_assoc. reflexivity. }
    apply Hev.
    destruct (rv r =? SOCK_ERROR); [|exists []; rewrite app_nil_r; reflexivity].
    cbn [errno].
    destruct (_ =? EINPROGRESS); [|exists []; rewrite app_nil_r; reflexivity].
    unfold is_connected, sio_select, bind, platform, ret.
    cbn [script errno trace].
    destruct rest as [|r2 rest]; [exists []; rewrite app_nil_r; reflexivity|].
    cbn [script errno trace].
    destruct (rv r2 =? 1); cbn [script errno trace].
    + change (1 =? 1) with true. cbv iota. cbn [script errno trace].
      destruct rest as [|r3 rest]; cbn [world_of trace].
      * eexists. reflexivity.
      * destruct (negb _); cbn [world_of trace];
          eexists; rewrite <- app_assoc; reflexivity.
    + change (0 =? 1) with false. cbv iota. cbn [world_of trace].
      eexists. reflexivity.
Qed.

Lemma sio_connect_unparsed_host_is_zero_address_witness :
  (forall w, sio_connect sio0 "localhost" 80 w =
             sio_connect sio0 "0.0.0.0" 80 w) /\
  (forall r rest e tr,
      firstn 1 (since (World (r :: rest) e tr)
                      (world_of (sio_connect sio0 "localhost" 80
                                             (World (r :: rest) e tr)))) =
      [(connect_c AF_INET (SockAddr AF_INET (htons 80) [0; 0; 0; 0]), r)]).
Proof.
  exact (sio_connect_unparsed_host_is_zero_address sio0 "localhost" 80 eq_refl).
Defined.

(** *** sio_recv and the closed peer *)

(** C6, as the claim states it, fails: a receive ended by a zero-byte read
    leaves the caller with the same return value and the same [errno] as a
    receive that ran out of budget, and as one ended by a failing [recv]. *)
Lemma peer_close_looks_like_other_failures :
  observed (sio_recv sio0 4 (boot [would_block; moves 1; moves 0]))
  = observed (sio_recv sio0 4 (boot (stalls [moves 1; moves 1; moves 1])))
  /\ observed (sio_recv sio0 4 (boot [would_block; moves 1; moves 0]))
     = Some (-1, EAGAIN)
  /\ observed (sio_recv sio0 4 (boot [would_block; fails EINTR; moves 0]))
     = observed (sio_recv sio0 4 (boot [fails EINTR]))
  /\ observed (sio_recv sio0 4 (boot [would_block; fails EINTR; moves 0]))
     = Some (-1, EINTR).
Proof. repeat split; reflexivity. Qed.

(** C6, amended.  In [sio_recv] a read of zero bytes ends the call at once
    with the value -1, at whatever loop head it comes: after any progress
    and with any number of would-blocks already counted.  And -1 is the
    only value [sio_recv] returns besides 0: nothing in the result tells a
    closed peer from an exhausted budget or a failed [recv]. *)
Theorem zero_read_ends_recv_with_failure :
  forall sio len,
    (forall w st w1 r rest,
        reaches Rx sio len (Xfer 0 0) w st w1 ->
        total_bytes st < len ->
        script w1 = r :: rest ->
        rv r = 0 ->
        sio_recv sio len w =
        Returned (-1) (answered (request Rx sio len st) r w1))
    /\
    (forall rds waits r rest e tr,
        0 <= len <= SIZE_MAX ->
        maxnfails sio <= INT_MAX ->
        Forall (within_budget sio) rds ->
        Forall (fun rd : round => 0 < snd rd) rds ->
        progress rds < len ->
        Z.of_nat (List.length waits) < maxnfails sio ->
        rv r = 0 ->
        let w := World (rounds_script rds ++ stalls waits ++ r :: rest) e tr in
        exists w',
          sio_recv sio len w = Returned (-1) w' /\
          script w' = rest /\
          since w w' =
            rounds_log Rx sio len 0 rds
            ++ stall_log Rx sio len (progress rds) waits
            ++ [(recv_c (socket sio) (progress rds) (len - progress rds) 0, r)])
    /\
    (forall w0 v w', sio_recv sio len w0 = Returned v w' -> v = 0 \/ v = -1).
Proof.
  intros sio len. split; [|split].
  - intros w st w1 r rest Hreach Hlt Hs Hr.
    change (sio_recv sio len w) with (xfer_loop Rx sio len (Xfer 0 0) w).
    rewrite (reaches_same_loop Rx sio len _ _ _ _ Hreach), xfer_loop_eq.
    rewrite (recv_body_closed sio len Rx st w1 r rest);
      try assumption; try reflexivity.
    + rewrite Hr. unfold SOCK_ERR. lia.
    + lia.
  - intros rds waits r rest e tr Hlen Hmax Hb Ha Hp Hw Hr w. subst w.
    change (sio_recv sio len) with (xfer_loop Rx sio len (Xfer 0 0)).
    pose proof (positive_advances Rx rds Ha) as Ha'.
    pose proof (progress_nonneg Rx rds Ha') as Hnn.
    destruct (rounds_then_stalls Rx sio len rds waits (r :: rest) e tr)
      as (w1 & Hs1 & Htr1 & Hl1); try assumption.
    rewrite Hl1, xfer_loop_eq.
    rewrite (recv_body_closed sio len Rx _ w1 r rest);
      cbn [total_bytes]; try reflexivity; try assumption; try lia.
    + eexists. split; [reflexivity|]. split.
      * cbn [answered script]. rewrite Hs1. reflexivity.
      * apply since_app. cbn [answered trace]. rewrite Htr1.
        unfold request. cbn [total_bytes xfer_call].
        rewrite size_wrap_small by lia. rewrite <- !app_assoc. reflexivity.
    + rewrite Hr. unfold SOCK_ERR. lia.
  - intros w0 v w' H.
    change (sio_recv sio len w0) with (xfer_loop Rx sio len (Xfer 0 0) w0) in H.
    eapply xfer_loop_returns; [|exact H]. apply Nat.lt_succ_diag_r.
Qed.

(** The run of the counterexample: a would-block, its wait, then the read
    of zero bytes. *)
Lemma zero_read_ends_recv_with_failure_witness :
  sio_recv sio0 4 (boot [would_block; moves 1; moves 0; moves 4]) =
    Returned (-1)
      (answered (request Rx sio0 4 (Xfer 0 1)) (moves 0)
         (World [moves 0; moves 4] EAGAIN
            [(recv_c 3 0 4 0, would_block);
             (select_c 4 (Some 3) None 1, moves 1)]))
  /\
  (let w := World (rounds_script [] ++ stalls [moves 1] ++ moves 0 :: [moves 4])
                  0 [] in
   exists w',
     sio_recv sio0 4 w = Returned (-1) w' /\
     script w' = [moves 4] /\
     since w w' =
       rounds_log Rx sio0 4 0 []
       ++ stall_log Rx sio0 4 (progress []) [moves 1]
       ++ [(recv_c (socket sio0) (progress []) (4 - progress []) 0, moves 0)])
  /\
  (forall w0 v w', sio_recv sio0 4 w0 = Returned v w' -> v = 0 \/ v = -1).
Proof.
  destruct (zero_read_ends_recv_with_failure sio0 4) as (Hhead & Hrun & Hval).
  split; [|split].
  - apply (Hhead (boot [would_block; moves 1; moves 0; moves 4]) (Xfer 0 1)
                 (World [moves 0; moves 4] EAGAIN
                    [(recv_c 3 0 4 0, would_block);
                     (select_c 4 (Some 3) None 1, moves 1)])
                 (moves 0) [moves 4]).
    + apply (reaches_pass Rx sio0 4 _ _ (Xfer 0 1)
               (World [moves 0; moves 4] EAGAIN
                  [(recv_c 3 0 4 0, would_block);
                   (select_c 4 (Some 3) None 1, moves 1)]));
        [reflexivity|apply reaches_here].
    + cbn. lia.
    + reflexivity.
    + reflexivity.
  - apply (Hrun [] [moves 1] (moves 0) [moves 4] 0 []).
    + unfold SIZE_MAX. lia.
    + unfold INT_MAX. cbn. lia.
    + constructor.
    + constructor.
    + cbn. lia.
    + cbn. lia.
    + reflexivity.
  - exact Hval.
Defined.

(** *** sio_close *)

(** C7.  [sio_close] returns as soon as the platform has answered its
    [close] call, whatever that answer is; the handle it leaves is
    [INV_SOCK] and the other fields are untouched.  Closing the result
    again does the same and leaves the same structure. *)
Theorem sio_close_sentinel_idempotent :
  forall sio r1 r2 rest e tr,
    let closed := with_socket sio INV_SOCK in
    let w := World (r1 :: r2 :: rest) e tr in
    let w1 := answered (close_c (socket sio)) r1 w in
    let w2 := answered (close_c INV_SOCK) r2 w1 in
    sio_close sio w = Returned closed w1 /\
    socket closed = INV_SOCK /\
    opts closed = opts sio /\
    timeout closed = timeout sio /\
    maxnfails closed = maxnfails sio /\
    sio_close closed w1 = Returned closed w2 /\
    script w2 = rest.
Proof.
  intros. repeat split.
Qed.

(** *** Lengths, buffers and zero-byte sends *)

(** C8.  A send of length 0 returns 0 at once: the world (script, errno,
    log of calls) is the one it was given, so no call was made. *)
Theorem sio_send_zero_length :
  forall sio w, sio_send sio 0 w = Returned 0 w.
Proof.
  intros sio w.
  change (sio_send sio 0 w) with (xfer_loop Tx sio 0 (Xfer 0 0) w).
  rewrite xfer_loop_eq, body_done by (cbn; lia).
  reflexivity.
Qed.

(** C9.  Each pass through the loops calls the platform for the
    [len - total_bytes] bytes at offset [total_bytes].  Hence, over a whole
    call of [sio_send] or [sio_recv], returned or still running, and with
    the platform keeping the contract of [send] and [recv]: the log follows
    the running total, [total_bytes] never exceeds [len], and every call
    and every transfer lies inside the [len] bytes. *)
Theorem sio_xfer_stays_in_buffer :
  forall d sio len,
    0 <= len <= SIZE_MAX ->
    (forall st r rest e tr,
        0 <= total_bytes st < len ->
        let w := World (r :: rest) e tr in
        firstn 1 (since w (world_of (xfer_body d sio len st w))) =
        [(xfer_call d (socket sio) (total_bytes st) (len - total_bytes st) 0, r)])
    /\
    (forall w,
        let o := sio_xfer d sio len w in
        Forall honours (since w (world_of o)) ->
        tracks d sio len 0 (since w (world_of o)) /\
        Forall (in_bounds len) (since w (world_of o))).
Proof.
  intros d sio len Hlen. split.
  - intros st r rest e tr Hst w.
    assert (Hreq : request d sio len st =
                   xfer_call d (socket sio) (total_bytes st)
                             (len - total_bytes st) 0).
    { unfold request. rewrite size_wrap_small by lia. reflexivity. }
    rewrite <- Hreq.
    destruct (xfer_body_pass d sio len st w)
      as [ Hge | Hlt Hs | r' rest' Hlt Hs Hr Hp | r' rest' Hd Hlt Hs Hr Hz
           | r' rest' Hlt Hs Hr He | r' Hlt Hs Hr He | r' r2 rest' Hlt Hs Hr He ];
      try lia; try discriminate;
      subst w; cbn [script] in Hs; inversion Hs; subst r'; cbn [world_of];
      try (rewrite (since_app _ _ [(request d sio len st, r)]) by reflexivity;
           reflexivity).
    rewrite (since_app _ _ [(request d sio len st, r); (wait_call d sio, r2)]).
    + reflexivity.
    + cbn [answered trace]. rewrite <- app_assoc. reflexivity.
  - intros w o Hh. subst o.
    rewrite sio_xfer_is_loop in *.
    destruct (xfer_loop_tracks d sio len Hlen (S (List.length (script w)))
                               (Xfer 0 0) w) as [Ht _].
    + lia.
    + cbn [total_bytes]. lia.
    + exact Hh.
    + cbn [total_bytes] in Ht. split; [exact Ht|].
      eapply tracks_in_bounds. exact Ht.
Qed.

Lemma sio_xfer_stays_in_buffer_witness :
  (let w := World [moves 2] 0 [] in
   firstn 1 (since w (world_of (xfer_body Rx sio0 4 (Xfer 1 0) w))) =
   [(xfer_call Rx (socket sio0) 1 (4 - 1) 0, moves 2)])
  /\
  (let w := boot [moves 1; would_block; moves 0; moves 2; moves 0] in
   let o := sio_xfer Rx sio0 4 w in
   tracks Rx sio0 4 0 (since w (world_of o)) /\
   Forall (in_bounds 4) (since w (world_of o))).
Proof.
  destruct (sio_xfer_stays_in_buffer Rx sio0 4) as [Hpass Hrun].
  - unfold SIZE_MAX. lia.
  - split.
    + apply (Hpass (Xfer 1 0) (moves 2) [] 0 []). cbn. lia.
    + apply (Hrun (boot [moves 1; would_block; moves 0; moves 2; moves 0])).
      vm_compute since. repeat constructor; unfold honours; cbn; lia.
Defined.


(** C10.  In [sio_send] a reply of zero bytes leaves [total_bytes] as it
    is and puts [nfails] back to 0, where in [sio_recv] it ends the call
    with -1.  So a send whose would-blocks, fewer than [maxnfails] at a
    time, are separated by zero-byte replies never returns: however many
    such rounds the platform gives, the call is still running and has made
    the calls of all of them. *)
Theorem zero_byte_send_counts_as_progress :
  forall sio len,
    0 < len <= SIZE_MAX ->
    maxnfails sio <= INT_MAX ->
    (forall total k r rest e tr,
        0 <= total < len -> rv r = 0 ->
        send_body sio len (Xfer total k) (World (r :: rest) e tr) =
        Returned (inl (Xfer total 0))
                 (World rest (errno_after r (World (r :: rest) e tr))
                        (tr ++ [(send_c (socket sio) total (len - total) 0, r)])))
    /\
    (forall total k r rest e tr,
        0 <= total < len -> rv r = 0 ->
        recv_body sio len (Xfer total k) (World (r :: rest) e tr) =
        Returned (inr (-1))
                 (World rest (errno_after r (World (r :: rest) e tr))
                        (tr ++ [(recv_c (socket sio) total (len - total) 0, r)])))
    /\
    (forall rds e tr,
        Forall (within_budget sio) rds ->
        Forall (fun rd : round => snd rd = 0) rds ->
        let w := World (rounds_script rds) e tr in
        exists w',
          sio_send sio len w = Awaiting w' /\
          script w' = [] /\
          since w w' = rounds_log Tx sio len 0 rds).
Proof.
  intros sio len Hlen Hmax.
  assert (Hl : 0 <= len <= SIZE_MAX) by lia.
  split; [|split].
  - intros total k r rest e tr Ht Hr.
    change (send_body sio len) with (xfer_body Tx sio len).
    rewrite (body_moves sio len Tx _ _ r rest);
      cbn [total_bytes script]; try reflexivity; try lia.
    + rewrite Hr, Z.add_0_r, size_wrap_small by lia.
      unfold answered, request, errno_after.
      cbn [script errno trace tl total_bytes xfer_call].
      rewrite size_wrap_small by lia. reflexivity.
    + rewrite Hr. unfold SOCK_ERR. lia.
    + discriminate.
  - intros total k r rest e tr Ht Hr.
    change (recv_body sio len) with (xfer_body Rx sio len).
    rewrite (recv_body_closed sio len Rx _ _ r rest);
      cbn [total_bytes script]; try reflexivity; try lia.
    + unfold answered, request, errno_after.
      cbn [script errno trace tl total_bytes xfer_call].
      rewrite size_wrap_small by lia. reflexivity.
    + rewrite Hr. unfold SOCK_ERR. lia.
  - intros rds e tr Hb Hz w. subst w.
    change (sio_send sio len) with (sio_xfer Tx sio len).
    rewrite sio_xfer_is_loop.
    assert (Ha : Forall (fun rd : round => advances Tx (snd rd)) rds).
    { eapply Forall_impl; [|exact Hz]. intros rd H. cbn in *. lia. }
    assert (Hp : progress rds = 0).
    { clear - Hz. induction Hz as [|rd l Hrd _ IH]; [reflexivity|].
      unfold progress in *. cbn [map fold_right]. lia. }
    pose proof (rounds_run Tx sio len Hl Hmax rds 0 [] e tr) as Hrun.
    rewrite app_nil_r in Hrun.
    destruct Hrun as (w1 & Hs1 & Htr1 & Hl1); try assumption; try lia.
    + apply (in_flight_short Tx); [assumption|lia].
    + rewrite Hl1, Hp, xfer_loop_eq, body_awaits
        by (assumption || (cbn [total_bytes]; lia)).
      exists w1. split; [reflexivity|]. split; [assumption|].
      apply since_app. exact Htr1.
Qed.

Lemma zero_byte_send_counts_as_progress_witness :
  send_body sio0 8 (Xfer 3 2) (World [moves 0] 0 []) =
    Returned (inl (Xfer 3 0)) (World [] 0 [(send_c 3 3 5 0, moves 0)])
  /\
  recv_body sio0 8 (Xfer 3 2) (World [moves 0] 0 []) =
    Returned (inr (-1)) (World [] 0 [(recv_c 3 3 5 0, moves 0)])
  /\
  let w := World (rounds_script [([moves 1; moves 1], 0); ([], 0);
                                 ([moves 1; moves 1], 0)]) 0 [] in
  exists w',
    sio_send sio0 8 w = Awaiting w' /\
    script w' = [] /\
    since w w' = rounds_log Tx sio0 8 0 [([moves 1; moves 1], 0); ([], 0);
                                         ([moves 1; moves 1], 0)].
Proof.
  destruct (zero_byte_send_counts_as_progress sio0 8) as (Hs & Hr & Hrun).
  - unfold SIZE_MAX. lia.
  - unfold INT_MAX. cbn. lia.
  - split; [|split].
    + apply (Hs 3 2 (moves 0) [] 0 []); [lia|reflexivity].
    + apply (Hr 3 2 (moves 0) [] 0 []); [lia|reflexivity].
    + apply (Hrun [([moves 1; moves 1], 0); ([], 0); ([moves 1; moves 1], 0)] 0 []).
      * repeat constructor.
      * repeat constructor.
Defined.

(** ** Further properties of the code *)

Lemma since_World s e tr s' e' evs :
  since (World s e tr) (World s' e' (tr ++ evs)) = evs.
Proof. apply since_app. reflexivity. Qed.

(** *** sio_socket *)

(** X1.  Whenever [sio_socket] returns, it returns 0 with a handle that is not
    [INV_SOCK], the value [socket] gave, or -1 with the handle at
    [INV_SOCK]; the options, the timeout and the budget are as they
    were. *)
Theorem sio_socket_result_and_handle :
  forall sio w v sio' w',
    sio_socket sio w = Returned (v, sio') w' ->
    ((v = 0 /\ socket sio' <> INV_SOCK /\
      exists r0, hd_error (script w) = Some r0 /\ socket sio' = rv r0)
     \/ (v = -1 /\ socket sio' = INV_SOCK)) /\
    opts sio' = opts sio /\
    timeout sio' = timeout sio /\
    maxnfails sio' = maxnfails sio.
Proof.
  intros sio [s e tr] v sio' w'.
  unfold sio_socket, sio_close, bind, platform, ret.
  cbn [script errno trace].
  destruct s as [|r0 s]; [discriminate|].
  cbn [script errno trace with_socket socket].
  destruct (rv r0 =? INV_SOCK) eqn:Hinv.
  - apply Z.eqb_eq in Hinv. intros E. inversion E; subst.
    cbn. auto.
  - apply Z.eqb_neq in Hinv.
    destruct (IS_NONBLOCK _).
    + destruct s as [|g s]; [discriminate|].
      cbn [script errno trace].
      destruct (rv g <? 1).
      * destruct s as [|c s]; [discriminate|].
        intros E. inversion E; subst. cbn. auto.
      * destruct s as [|f s]; [discriminate|].
        cbn [script errno trace].
        destruct (rv f <? 0).
        -- destruct s as [|c s]; [discriminate|].
           intros E. inversion E; subst. cbn. auto.
        -- intros E. inversion E; subst. cbn.
           split; [left; repeat split; eauto|auto].
    + intros E. inversion E; subst. cbn.
      split; [left; repeat split; eauto|auto].
Qed.

Lemma sio_socket_result_and_handle_witness :
  ((0 = 0 /\ socket (Sio 5 SIO_NONBLOCK 1 3) <> INV_SOCK /\
    exists r0, hd_error (script (boot [moves 5; moves 2; moves 0])) = Some r0 /\
               socket (Sio 5 SIO_NONBLOCK 1 3) = rv r0)
   \/ (0 = -1 /\ socket (Sio 5 SIO_NONBLOCK 1 3) = INV_SOCK)) /\
  opts (Sio 5 SIO_NONBLOCK 1 3) = opts (Sio INV_SOCK SIO_NONBLOCK 1 3) /\
  timeout (Sio 5 SIO_NONBLOCK 1 3) = timeout (Sio INV_SOCK SIO_NONBLOCK 1 3) /\
  maxnfails (Sio 5 SIO_NONBLOCK 1 3) = maxnfails (Sio INV_SOCK SIO_NONBLOCK 1 3).
Proof.
  apply (sio_socket_result_and_handle (Sio INV_SOCK SIO_NONBLOCK 1 3)
           (boot [moves 5; moves 2; moves 0]) 0 (Sio 5 SIO_NONBLOCK 1 3)
           (World [] 0 [(socket_c AF_INET SOCK_STREAM IPPROTO_TCP, moves 5);
                        (fcntl_c 5 F_GETFL 0, moves 2);
                        (fcntl_c 5 F_SETFL (Z.lor 2 O_NONBLOCK), moves 0)])).
  reflexivity.
Defined.

(** X2.  [sio_socket] leaks no descriptor: when it returns -1 after [socket]
    gave a descriptor, it has closed that descriptor, once; when it
    returns 0, or when [socket] itself failed, it has closed nothing. *)
Theorem sio_socket_closes_what_it_abandons :
  forall sio r0 rest e tr v sio' w',
    let w := World (r0 :: rest) e tr in
    sio_socket sio w = Returned (v, sio') w' ->
    closed_fds (since w w') =
    (if (v =? 0) || (rv r0 =? INV_SOCK) then [] else [rv r0]).
Proof.
  intros sio r0 s e tr v sio' w' w. subst w.
  unfold sio_socket, sio_close, bind, platform, ret.
  cbn [script errno trace with_socket socket].
  destruct (rv r0 =? INV_SOCK) eqn:Hinv.
  - intros E. inversion E; subst. rewrite since_World, orb_true_r. reflexivity.
  - rewrite orb_false_r.
    destruct (IS_NONBLOCK _).
    + destruct s as [|g s]; [discriminate|].
      cbn [script errno trace].
      destruct (rv g <? 1).
      * destruct s as [|c s]; [discriminate|].
        intros E. inversion E; subst.
        rewrite <- !app_assoc, since_World. reflexivity.
      * destruct s as [|f s]; [discriminate|].
        cbn [script errno trace].
        destruct (rv f <? 0).
        -- destruct s as [|c s]; [discriminate|].
           intros E. inversion E; subst.
           rewrite <- !app_assoc, since_World. reflexivity.
        -- intros E. inversion E; subst.
           rewrite <- !app_assoc, since_World. reflexivity.
    + intros E. inversion E; subst. rewrite since_World. reflexivity.
Qed.

Lemma sio_socket_closes_what_it_abandons_witness :
  closed_fds
    (since (World [moves 5; moves 0; moves 0] 0 [])
           (World [] 0 [(socket_c AF_INET SOCK_STREAM IPPROTO_TCP, moves 5);
                        (fcntl_c 5 F_GETFL 0, moves 0);
                        (close_c 5, moves 0)])) =
  (if (-1 =? 0) || (rv (moves 5) =? INV_SOCK) then [] else [rv (moves 5)]).
Proof.
  apply (sio_socket_closes_what_it_abandons (Sio INV_SOCK SIO_NONBLOCK 1 3)
           (moves 5) [moves 0; moves 0] 0 [] (-1) (Sio INV_SOCK SIO_NONBLOCK 1 3)).
  reflexivity.
Defined.

Lemma lor_keeps_bits (a b : Z) :
  Z.land (Z.lor a b) b = b /\ Z.land (Z.lor a b) a = a.
Proof.
  split; apply Z.bits_inj'; intros n _;
    rewrite Z.land_spec, Z.lor_spec;
    destruct (Z.testbit a n), (Z.testbit b n); reflexivity.
Qed.

Lemma IS_NONBLOCK_with_socket sio fd :
  IS_NONBLOCK (with_socket sio fd) = IS_NONBLOCK sio.
Proof. reflexivity. Qed.

(** X3.  When [sio_socket] returns 0 for a blocking connection, [socket] is the
    only call it made.  For a non-blocking connection it made three:
    [socket], [fcntl (F_GETFL)], which answered a flag word of at least 1,
    and [fcntl (F_SETFL)] with that word and [O_NONBLOCK]: every flag that
    was set stays set and [O_NONBLOCK] is added. *)
Theorem sio_socket_success_sets_nonblock :
  forall sio w sio' w',
    sio_socket sio w = Returned (0, sio') w' ->
    (IS_NONBLOCK sio = false /\
     exists r0,
       since w w' = [(socket_c AF_INET SOCK_STREAM IPPROTO_TCP, r0)])
    \/
    (IS_NONBLOCK sio = true /\
     exists r0 g f,
       since w w' =
         [(socket_c AF_INET SOCK_STREAM IPPROTO_TCP, r0);
          (fcntl_c (socket sio') F_GETFL 0, g);
          (fcntl_c (socket sio') F_SETFL (Z.lor (rv g) O_NONBLOCK), f)] /\
       1 <= rv g /\ 0 <= rv f /\
       Z.land (Z.lor (rv g) O_NONBLOCK) O_NONBLOCK = O_NONBLOCK /\
       Z.land (Z.lor (rv g) O_NONBLOCK) (rv g) = rv g).
Proof.
  intros sio [s e tr] sio' w'.
  unfold sio_socket, sio_close, bind, platform, ret.
  cbn [script errno trace].
  destruct s as [|r0 s]; [discriminate|].
  cbn [script errno trace with_socket socket].
  destruct (rv r0 =? INV_SOCK) eqn:Hinv; [discriminate|].
  rewrite IS_NONBLOCK_with_socket.
  destruct (IS_NONBLOCK sio); cbn [script errno trace].
  - destruct s as [|g s]; [discriminate|].
    cbn [script errno trace].
    destruct (rv g <? 1) eqn:Hg.
    + destruct s as [|c s]; [discriminate|]. intros E; inversion E.
    + destruct s as [|f s]; [discriminate|].
      cbn [script errno trace].
      destruct (rv f <? 0) eqn:Hf.
      * destruct s as [|c s]; [discriminate|]. intros E; inversion E.
      * intros E. inversion E; subst. right. split; [reflexivity|].
        exists r0, g, f. cbn [socket].
        rewrite <- !app_assoc, since_World.
        apply Z.ltb_ge in Hg, Hf.
        destruct (lor_keeps_bits (rv g) O_NONBLOCK) as [H1 H2].
        repeat split; assumption.
  - intros E. inversion E; subst. left. split; [reflexivity|].
    exists r0. rewrite since_World. reflexivity.
Qed.

Lemma sio_socket_success_sets_nonblock_witness :
  let sio := Sio INV_SOCK SIO_NONBLOCK 1 3 in
  let sio' := Sio 5 SIO_NONBLOCK 1 3 in
  let w := boot [moves 5; moves 2; moves 0] in
  let w' := World [] 0 [(socket_c AF_INET SOCK_STREAM IPPROTO_TCP, moves 5);
                        (fcntl_c 5 F_GETFL 0, moves 2);
                        (fcntl_c 5 F_SETFL (Z.lor 2 O_NONBLOCK), moves 0)] in
  (IS_NONBLOCK sio = false /\
   exists r0,
     since w w' = [(socket_c AF_INET SOCK_STREAM IPPROTO_TCP, r0)])
  \/
  (IS_NONBLOCK sio = true /\
   exists r0 g f,
     since w w' =
       [(socket_c AF_INET SOCK_STREAM IPPROTO_TCP, r0);
        (fcntl_c (socket sio') F_GETFL 0, g);
        (fcntl_c (socket sio') F_SETFL (Z.lor (rv g) O_NONBLOCK), f)] /\
     1 <= rv g /\ 0 <= rv f /\
     Z.land (Z.lor (rv g) O_NONBLOCK) O_NONBLOCK = O_NONBLOCK /\
     Z.land (Z.lor (rv g) O_NONBLOCK) (rv g) = rv g).
Proof.
  apply (sio_socket_success_sets_nonblock (Sio INV_SOCK SIO_NONBLOCK 1 3)
           (boot [moves 5; moves 2; moves 0]) (Sio 5 SIO_NONBLOCK 1 3)).
  reflexivity.
Defined.

(** X4.  For a non-blocking connection, a flag word below 1 from
    [fcntl (F_GETFL)] makes [sio_socket] give up: it closes the descriptor
    it had just got, without trying [F_SETFL], and returns -1 with the
    handle at [INV_SOCK].  That includes the word 0, with which [fcntl]
    reports no failure. *)
Theorem sio_socket_gives_up_on_flag_word_below_one :
  forall sio r0 g c rest e tr,
    IS_NONBLOCK sio = true ->
    rv r0 <> INV_SOCK ->
    rv g < 1 ->
    let w := World (r0 :: g :: c :: rest) e tr in
    exists w',
      sio_socket sio w = Returned (-1, with_socket sio INV_SOCK) w' /\
      script w' = rest /\
      since w w' =
        [(socket_c AF_INET SOCK_STREAM IPPROTO_TCP, r0);
         (fcntl_c (rv r0) F_GETFL 0, g);
         (close_c (rv r0), c)].
Proof.
  intros sio r0 g c rest e tr Hnb Hinv Hg w. subst w.
  apply Z.eqb_neq in Hinv. apply Z.ltb_lt in Hg.
  unfold sio_socket, sio_close, bind, platform, ret.
  cbn [script errno trace with_socket socket].
  rewrite Hinv.
  rewrite IS_NONBLOCK_with_socket.
  rewrite Hnb. cbn [script errno trace]. rewrite Hg.
  cbn [script errno trace with_socket socket opts timeout maxnfails].
  eexists. split; [reflexivity|]. split; [reflexivity|].
  rewrite <- !app_assoc. apply since_World.
Qed.

Lemma sio_socket_gives_up_on_flag_word_below_one_witness :
  let w := World [moves 5; moves 0; moves 0] 0 [] in
  exists w',
    sio_socket (Sio INV_SOCK SIO_NONBLOCK 1 3) w =
      Returned (-1, with_socket (Sio INV_SOCK SIO_NONBLOCK 1 3) INV_SOCK) w' /\
    script w' = [] /\
    since w w' =
      [(socket_c AF_INET SOCK_STREAM IPPROTO_TCP, moves 5);
       (fcntl_c (rv (moves 5)) F_GETFL 0, moves 0);
       (close_c (rv (moves 5)), moves 0)].
Proof.
  apply (sio_socket_gives_up_on_flag_word_below_one
           (Sio INV_SOCK SIO_NONBLOCK 1 3) (moves 5) (moves 0) (moves 0) [] 0 []).
  - reflexivity.
  - discriminate.
  - cbn. lia.
Defined.

(** *** sio_connect *)

(** X5.  Whatever the platform answers, and whether it has returned or not,
    [sio_connect] has made at most three calls: [connect], then one wait
    for writing, then one read of [SO_ERROR], in that order and none of
    them twice.  The value it returns is 0 or -1. *)
Theorem sio_connect_at_most_three_calls :
  forall sio host port w,
    let o := sio_connect sio host port w in
    (exists n, (n <= 3)%nat /\
               map fst (since w (world_of o)) =
               firstn n (connect_plan sio host port)) /\
    (forall v w', o = Returned v w' -> v = 0 \/ v = -1).
Proof.
  intros sio host port [s e tr] o. subst o.
  unfold sio_connect, is_connected, sio_select, bind, set_errno, platform,
    get_errno, ret, connect_plan.
  fold (connect_call host port).
  cbn [script errno trace].
  destruct s as [|r s].
  { split; [exists 0%nat; split; [lia|]; cbn [world_of];
            rewrite (since_app _ _ [])
              by (cbn [trace]; rewrite app_nil_r; reflexivity);
            reflexivity
           |discriminate]. }
  cbn [script errno trace].
  destruct (rv r =? SOCK_ERROR);
    [|split; [exists 1%nat; split; [lia|]; cbn [world_of];
              rewrite since_World; reflexivity
             |intros v w' E; inversion E; auto]].
  destruct (_ =? EINPROGRESS);
    [|split; [exists 1%nat; split; [lia|]; cbn [world_of];
              rewrite since_World; reflexivity
             |intros v w' E; inversion E; auto]].
  destruct s as [|r2 s]; cbn [script errno trace].
  { split; [exists 1%nat; split; [lia|]; cbn [world_of];
            rewrite since_World; reflexivity
           |discriminate]. }
  destruct (rv r2 =? 1); cbn [script errno trace].
  - change (1 =? 1) with true. cbv iota. cbn [script errno trace].
    destruct s as [|r3 s]; cbn [script errno trace].
    + split; [exists 2%nat; split; [lia|]; cbn [world_of];
              rewrite <- !app_assoc, since_World; reflexivity
             |discriminate].
    + destruct (negb _);
        (split; [exists 3%nat; split; [lia|]; cbn [world_of];
                 rewrite <- !app_assoc, since_World; reflexivity
                |intros v w' E; inversion E; auto]).
  - change (0 =? 1) with false. cbv iota.
    split; [exists 2%nat; split; [lia|]; cbn [world_of];
            rewrite <- !app_assoc, since_World; reflexivity
           |intros v w' E; inversion E; auto].
Qed.

(** X6.  [sio_connect] waits only when [connect] fails with [EINPROGRESS].  A
    [connect] that does not fail gives 0, and one that fails with any other
    code, or fails and leaves [errno] at the 0 it was set to, gives -1;
    either way [connect] is the only call made. *)
Theorem sio_connect_without_wait :
  forall sio host port r rest e tr,
    let code := match rerrno r with Some x => x | None => 0 end in
    rv r <> SOCK_ERROR \/ code <> EINPROGRESS ->
    sio_connect sio host port (World (r :: rest) e tr) =
    Returned (if rv r =? SOCK_ERROR then -1 else 0)
             (World rest code (tr ++ [(connect_call host port, r)])).
Proof.
  intros sio host port r rest e tr code H.
  unfold sio_connect, bind, set_errno, platform, get_errno, ret.
  fold (connect_call host port).
  cbn [script errno trace]. fold code.
  destruct (rv r =? SOCK_ERROR) eqn:Hr; [|reflexivity].
  apply Z.eqb_eq in Hr.
  destruct H as [H|H]; [contradiction|].
  apply Z.eqb_neq in H. cbn [errno]. fold code. rewrite H. reflexivity.
Qed.

Lemma sio_connect_without_wait_witness :
  sio_connect sio0 "10.0.0.1" 80 (World [fails EAGAIN; moves 1] 7 []) =
  Returned (if rv (fails EAGAIN) =? SOCK_ERROR then -1 else 0)
           (World [moves 1] EAGAIN [(connect_call "10.0.0.1" 80, fails EAGAIN)]).
Proof.
  apply (sio_connect_without_wait sio0 "10.0.0.1" 80 (fails EAGAIN) [moves 1] 7 []).
  right. discriminate.
Defined.

(** *** sio_send and sio_recv: failures *)

Lemma not_again (x : Z) : x <> EAGAIN -> is_again x = false.
Proof.
  intros H. unfold is_again.
  change EWOULDBLOCK with EAGAIN.
  apply Z.eqb_neq in H. rewrite H. reflexivity.
Qed.

(** X7.  A [send] or [recv] that fails with a code other than [EAGAIN] ends the
    transfer at once with -1, at whatever loop head it comes: no wait is
    made and the budget plays no part, however many would-blocks are
    already counted and however many bytes have gone through. *)
Theorem xfer_fatal_error_ends_at_once :
  forall d sio len,
    (forall w st w1 r rest,
        reaches d sio len (Xfer 0 0) w st w1 ->
        total_bytes st < len ->
        script w1 = r :: rest ->
        rv r = SOCK_ERR ->
        is_again (errno_after r w1) = false ->
        sio_xfer d sio len w =
        Returned (-1) (answered (request d sio len st) r w1))
    /\
    (forall rds waits r rest e tr x,
        0 <= len <= SIZE_MAX ->
        maxnfails sio <= INT_MAX ->
        Forall (within_budget sio) rds ->
        Forall (fun rd : round => advances d (snd rd)) rds ->
        progress rds < len ->
        Z.of_nat (List.length waits) < maxnfails sio ->
        rv r = SOCK_ERR -> rerrno r = Some x -> x <> EAGAIN ->
        let w := World (rounds_script rds ++ stalls waits ++ r :: rest) e tr in
        exists w',
          sio_xfer d sio len w = Returned (-1) w' /\
          script w' = rest /\
          errno w' = x /\
          since w w' =
            rounds_log d sio len 0 rds
            ++ stall_log d sio len (progress rds) waits
            ++ [(xfer_call d (socket sio) (progress rds) (len - progress rds) 0,
                 r)]).
Proof.
  intros d sio len. split.
  - intros w st w1 r rest Hreach Hlt Hs Hr He.
    rewrite sio_xfer_is_loop.
    rewrite (reaches_same_loop d sio len _ _ _ _ Hreach), xfer_loop_eq.
    rewrite (body_fatal sio len d st w1 r rest) by assumption.
    reflexivity.
  - intros rds waits r rest e tr x Hlen Hmax Hb Ha Hp Hw Hr He Hx w. subst w.
    rewrite sio_xfer_is_loop.
    pose proof (progress_nonneg d rds Ha) as Hnn.
    destruct (rounds_then_stalls d sio len rds waits (r :: rest) e tr)
      as (w1 & Hs1 & Htr1 & Hl1); try assumption.
    rewrite Hl1, xfer_loop_eq.
    destruct w1 as [sc1 e1 tr1]. cbn [script trace] in Hs1, Htr1. subst sc1 tr1.
    rewrite (body_fatal sio len d _ _ r rest);
      cbn [total_bytes script]; try assumption; try reflexivity.
    + eexists. split; [reflexivity|].
      unfold answered. cbn [script errno trace tl]. rewrite He.
      split; [reflexivity|]. split; [reflexivity|].
      apply since_app. cbn [trace]. unfold request. cbn [total_bytes].
      rewrite size_wrap_small by lia. rewrite <- !app_assoc. reflexivity.
    + unfold errno_after. rewrite He. apply not_again. assumption.
Qed.

(** Two bytes sent, two would-blocks of a budget of three, then
    [ECONNRESET]. *)
Lemma xfer_fatal_error_ends_at_once_witness :
  sio_xfer Tx sio0 7 (boot [would_block; moves 1; fails 104; moves 5]) =
    Returned (-1)
      (answered (request Tx sio0 7 (Xfer 0 1)) (fails 104)
         (World [fails 104; moves 5] EAGAIN
            [(send_c 3 0 7 0, would_block);
             (select_c 4 None (Some 3) 1, moves 1)]))
  /\
  (let w := World (rounds_script [([moves 1], 2)] ++ stalls [moves 0; moves 0]
                   ++ fails 104 :: [moves 5]) 0 [] in
   exists w',
     sio_xfer Tx sio0 7 w = Returned (-1) w' /\
     script w' = [moves 5] /\
     errno w' = 104 /\
     since w w' =
       rounds_log Tx sio0 7 0 [([moves 1], 2)]
       ++ stall_log Tx sio0 7 (progress [([moves 1], 2)]) [moves 0; moves 0]
       ++ [(xfer_call Tx (socket sio0) (progress [([moves 1], 2)])
                      (7 - progress [([moves 1], 2)]) 0, fails 104)]).
Proof.
  destruct (xfer_fatal_error_ends_at_once Tx sio0 7) as (Hhead & Hrun).
  split.
  - apply (Hhead (boot [would_block; moves 1; fails 104; moves 5]) (Xfer 0 1)
                 (World [fails 104; moves 5] EAGAIN
                    [(send_c 3 0 7 0, would_block);
                     (select_c 4 None (Some 3) 1, moves 1)])
                 (fails 104) [moves 5]).
    + apply (reaches_pass Tx sio0 7 _ _ (Xfer 0 1)
               (World [fails 104; moves 5] EAGAIN
                  [(send_c 3 0 7 0, would_block);
                   (select_c 4 None (Some 3) 1, moves 1)]));
        [reflexivity|apply reaches_here].
    + cbn. lia.
    + reflexivity.
    + reflexivity.
    + reflexivity.
  - apply (Hrun [([moves 1], 2)] [moves 0; moves 0] (fails 104) [moves 5] 0 [] 104).
    + unfold SIZE_MAX. lia.
    + unfold INT_MAX. cbn. lia.
    + repeat constructor.
    + repeat constructor; cbn; lia.
    + cbn. lia.
    + cbn. lia.
    + reflexivity.
    + reflexivity.
    + discriminate.
Defined.

Section Verdict.

Variables (d : direction) (sio : socketio) (len : Z).
Hypothesis len_size_t : 0 <= len <= SIZE_MAX.

(** A transfer that ends with -1 has moved fewer than [len] bytes. *)
Lemma xfer_loop_failure_is_short (n : nat) :
  forall st w w',
    (List.length (script w) < n)%nat ->
    0 <= total_bytes st <= len ->
    xfer_loop d sio len st w = Returned (-1) w' ->
    Forall honours (since w w') ->
    total_bytes st + transferred (since w w') < len.
Proof.
  induction n as [|n IH]; intros st w w' Hn Hst; [lia|].
  rewrite xfer_loop_eq.
  destruct (xfer_body_pass d sio len st w)
    as [ Hge | Hlt Hs | r rest Hlt Hs Hr Hp | r rest Hd Hlt Hs Hr Hz
         | r rest Hlt Hs Hr He | r Hlt Hs Hr He | r r2 rest Hlt Hs Hr He ];
    try discriminate.
  - (* bytes moved *)
    set (st1 := Xfer (size_wrap (total_bytes st + rv r)) 0).
    set (w1 := answered (request d sio len st) r w).
    intros Hret.
    assert (Hlen1 : (List.length (script w1) < n)%nat).
    { subst w1. cbn [answered script]. rewrite Hs in *.
      cbn [tl List.length] in *. lia. }
    assert (Hext : exists evs, trace w' = trace w1 ++ evs).
    { destruct (xfer_loop_extends_trace d sio len n st1 w1 Hlen1) as [evs H].
      rewrite Hret in H. exists evs. exact H. }
    rewrite (since_step w w1 w' [(request d sio len st, r)]);
      [|reflexivity|exact Hext].
    cbn [app]. intros Hh. apply Forall_cons_iff in Hh. destruct Hh as [Hev Hh'].
    apply honours_request in Hev; [|assumption|lia].
    destruct Hev as [Hev|Hev]; [contradiction|].
    rewrite (transferred_request d sio len), (moved_ok r Hr).
    assert (Hst1 : total_bytes st1 = total_bytes st + rv r).
    { subst st1. cbn [total_bytes]. apply size_wrap_small. lia. }
    pose proof (IH st1 w1 w' Hlen1 ltac:(lia) Hret Hh') as H.
    rewrite Hst1 in H. lia.
  - (* receive: the peer has closed *)
    intros E. inversion E; subst w'.
    rewrite (since_app _ _ [(request d sio len st, r)]) by reflexivity.
    intros Hh. apply Forall_cons_iff in Hh. destruct Hh as [Hev _].
    apply honours_request in Hev; [|assumption|lia].
    destruct Hev as [Hev|Hev]; [contradiction|].
    rewrite (transferred_request d sio len), (moved_ok r Hr).
    cbn [transferred]. lia.
  - (* fatal error *)
    intros E. inversion E; subst w'.
    rewrite (since_app _ _ [(request d sio len st, r)]) by reflexivity.
    intros _.
    rewrite (transferred_request d sio len), (moved_failed r Hr).
    cbn [transferred]. lia.
  - (* would-block and wait *)
    set (w1 := answered (wait_call d sio) r2
                        (answered (request d sio len st) r w)).
    assert (Hlen1 : (List.length (script w1) < n)%nat).
    { subst w1. cbn [answered script]. rewrite Hs in *.
      cbn [tl List.length] in *. lia. }
    assert (Htr1 : trace w1 = trace w ++ [(request d sio len st, r);
                                          (wait_call d sio, r2)]).
    { subst w1. cbn [answered trace]. rewrite <- app_assoc. reflexivity. }
    destruct (int_wrap (nfails st + 1) >=? maxnfails sio).
    + intros E. inversion E; subst w'.
      rewrite (since_app _ _ _ Htr1). intros _.
      rewrite (transferred_request d sio len), (moved_failed r Hr).
      cbn [transferred wait_call xfer_count]. lia.
    + intros Hret.
      assert (Hext : exists evs, trace w' = trace w1 ++ evs).
      { destruct (xfer_loop_extends_trace
                    d sio len n (Xfer (total_bytes st) (int_wrap (nfails st + 1)))
                    w1 Hlen1) as [evs H].
        rewrite Hret in H. exists evs. exact H. }
      rewrite (since_step w w1 w' _ Htr1 Hext).
      cbn [app]. intros Hh.
      apply Forall_cons_iff in Hh. destruct Hh as [_ Hh1].
      apply Forall_cons_iff in Hh1. destruct Hh1 as [_ Hh2].
      pose proof (IH (Xfer (total_bytes st) (int_wrap (nfails st + 1))) w1 w'
                     Hlen1 ltac:(cbn [total_bytes]; lia) Hret Hh2) as H.
      cbn [total_bytes] in H.
      rewrite (transferred_request d sio len), (moved_failed r Hr).
      cbn [transferred wait_call xfer_count]. lia.
Qed.

End Verdict.

(** X8.  The value returned tells whether the transfer was completed: with the
    platform keeping the contract of [send] and [recv], a call that
    returns has returned 0 and moved exactly [len] bytes, or has returned
    -1 and moved fewer.  It never reports a failure after moving
    everything, nor a success after moving less. *)
Theorem sio_xfer_result_tells_completion :
  forall d sio len w v w',
    0 <= len <= SIZE_MAX ->
    sio_xfer d sio len w = Returned v w' ->
    Forall honours (since w w') ->
    (v = 0 /\ transferred (since w w') = len) \/
    (v = -1 /\ transferred (since w w') < len).
Proof.
  intros d sio len w v w' Hlen Hret Hh.
  rewrite sio_xfer_is_loop in Hret.
  destruct (xfer_loop_returns d sio len (S (List.length (script w)))
                              (Xfer 0 0) w v w' ltac:(lia) Hret) as [-> | ->].
  - left. split; [reflexivity|].
    destruct (xfer_loop_tracks d sio len Hlen (S (List.length (script w)))
                               (Xfer 0 0) w) as [_ Hd].
    + lia.
    + cbn [total_bytes]. lia.
    + rewrite Hret. exact Hh.
    + specialize (Hd w' Hret). rewrite Hret in Hd.
      cbn [world_of total_bytes] in Hd. lia.
  - right. split; [reflexivity|].
    pose proof (xfer_loop_failure_is_short d sio len Hlen
                  (S (List.length (script w))) (Xfer 0 0) w w'
                  ltac:(lia) ltac:(cbn [total_bytes]; lia) Hret Hh) as H.
    cbn [total_bytes] in H. lia.
Qed.

Lemma sio_xfer_result_tells_completion_witness :
  let w := boot [moves 5; moves 0] in
  let w' := World [] 0 [(recv_c 3 0 10 0, moves 5); (recv_c 3 5 5 0, moves 0)] in
  (-1 = 0 /\ transferred (since w w') = 10) \/
  (-1 = -1 /\ transferred (since w w') < 10).
Proof.
  apply (sio_xfer_result_tells_completion Rx sio0 10 (boot [moves 5; moves 0])).
  - unfold SIZE_MAX. lia.
  - reflexivity.
  - vm_compute since. repeat constructor; unfold honours; cbn; lia.
Defined.

(** X9.  A transfer keeps to its own calls: [sio_send] only calls [send] on the
    connection's descriptor, with flags 0, and waits for writing;
    [sio_recv] only calls [recv] on it and waits for reading.  Neither
    closes the descriptor or touches another one. *)
Theorem sio_xfer_keeps_to_its_calls :
  forall d sio len w,
    Forall (fun ev => own_call d sio (fst ev))
           (since w (world_of (sio_xfer d sio len w))).
Proof.
  intros d sio len w. rewrite sio_xfer_is_loop.
  generalize (Xfer 0 0) as st.
  assert (Hn : (List.length (script w) < S (List.length (script w)))%nat) by lia.
  revert Hn. generalize (S (List.length (script w))) as n.
  intros n. revert w.
  induction n as [|n IH]; intros w Hn st; [lia|].
  assert (Hreq : forall st0, own_call d sio (request d sio len st0)).
  { intros st0. left. eexists. eexists. reflexivity. }
  assert (Hwait : own_call d sio (wait_call d sio)) by (right; reflexivity).
  rewrite xfer_loop_eq.
  destruct (xfer_body_pass d sio len st w)
    as [ Hge | Hlt Hs | r rest Hlt Hs Hr Hp | r rest Hd Hlt Hs Hr Hz
         | r rest Hlt Hs Hr He | r Hlt Hs Hr He | r r2 rest Hlt Hs Hr He ];
    cbn [world_of];
    try (rewrite since_refl; constructor);
    try (rewrite (since_app _ _ [(request d sio len st, r)]) by reflexivity;
         constructor; [apply Hreq|constructor]).
  - set (w1 := answered (request d sio len st) r w).
    assert (Hlen1 : (List.length (script w1) < n)%nat).
    { subst w1. cbn [answered script]. rewrite Hs in *.
      cbn [tl List.length] in *. lia. }
    rewrite (since_step w w1 _ [(request d sio len st, r)]);
      [|reflexivity|apply (xfer_loop_extends_trace d sio len n); exact Hlen1].
    constructor; [apply Hreq|]. apply IH. exact Hlen1.
  - set (w1 := answered (wait_call d sio) r2
                        (answered (request d sio len st) r w)).
    assert (Hlen1 : (List.length (script w1) < n)%nat).
    { subst w1. cbn [answered script]. rewrite Hs in *.
      cbn [tl List.length] in *. lia. }
    assert (Htr1 : trace w1 = trace w ++ [(request d sio len st, r);
                                          (wait_call d sio, r2)]).
    { subst w1. cbn [answered trace]. rewrite <- app_assoc. reflexivity. }
    destruct (int_wrap (nfails st + 1) >=? maxnfails sio).
    + cbn [world_of]. rewrite (since_app _ _ _ Htr1).
      constructor; [apply Hreq|]. constructor; [apply Hwait|constructor].
    + rewrite (since_step w w1 _ _ Htr1);
        [|apply (xfer_loop_extends_trace d sio len n); exact Hlen1].
      constructor; [apply Hreq|]. constructor; [apply Hwait|].
      apply IH. exact Hlen1.
Qed.

(** *** sio_send and sio_recv: the failure count and the budget *)

Lemma reaches_keeps_count d sio len st w st' w' :
  maxnfails sio <= INT_MAX ->
  reaches d sio len st w st' w' ->
  0 <= nfails st /\ (nfails st = 0 \/ nfails st < maxnfails sio) ->
  0 <= nfails st' /\ (nfails st' = 0 \/ nfails st' < maxnfails sio).
Proof.
  intros Hmax. induction 1 as [|st w st1 w1 st2 w2 Hb _ IH]; [tauto|].
  intros [H0 Hlt]. apply IH. clear IH.
  pose proof (xfer_body_pass d sio len st w) as P. rewrite Hb in P.
  inversion P as [ | | r rest _ _ _ _ E | | | | r r2 rest _ _ _ _ E ].
  - cbn [nfails]. lia.
  - assert (Hw : int_wrap (nfails st + 1) = nfails st + 1).
    { apply int_wrap_small. unfold INT_MAX in *. lia. }
    rewrite Hw in E.
    destruct (nfails st + 1 >=? maxnfails sio) eqn:G; [discriminate|].
    rewrite Z.geb_leb in G. apply Z.leb_gt in G.
    inversion E. cbn [nfails]. lia.
Qed.

(** X10.  At every loop head of a transfer [nfails] is at least 0 and, unless it
    is 0, below [maxnfails]; so the increment [nfails++] never overflows
    the [int]. *)
Theorem nfails_stays_within_budget :
  forall d sio len w st w',
    maxnfails sio <= INT_MAX ->
    reaches d sio len (Xfer 0 0) w st w' ->
    0 <= nfails st /\
    (nfails st = 0 \/ nfails st < maxnfails sio) /\
    int_wrap (nfails st + 1) = nfails st + 1.
Proof.
  intros d sio len w st w' Hmax Hr.
  destruct (reaches_keeps_count d sio len _ _ _ _ Hmax Hr) as [H0 Hlt].
  - cbn [nfails]. lia.
  - split; [exact H0|]. split; [exact Hlt|].
    apply int_wrap_small. unfold INT_MAX in *. lia.
Qed.

Lemma nfails_stays_within_budget_witness :
  0 <= nfails (Xfer 1 2) /\
  (nfails (Xfer 1 2) = 0 \/ nfails (Xfer 1 2) < maxnfails sio0) /\
  int_wrap (nfails (Xfer 1 2) + 1) = nfails (Xfer 1 2) + 1.
Proof.
  apply (nfails_stays_within_budget Tx sio0 4
           (boot [moves 1; would_block; moves 0; would_block; moves 0])
           (Xfer 1 2)
           (World [] EAGAIN
              [(send_c 3 0 4 0, moves 1);
               (send_c 3 1 3 0, would_block); (select_c 4 None (Some 3) 1, moves 0);
               (send_c 3 1 3 0, would_block); (select_c 4 None (Some 3) 1, moves 0)])).
  - unfold INT_MAX. cbn. lia.
  - apply (reaches_pass Tx sio0 4 _ _ (Xfer 1 0)
             (World [would_block; moves 0; would_block; moves 0] 0
                    [(send_c 3 0 4 0, moves 1)]));
      [reflexivity|].
    apply (reaches_pass Tx sio0 4 _ _ (Xfer 1 1)
             (World [would_block; moves 0] EAGAIN
                    [(send_c 3 0 4 0, moves 1);
                     (send_c 3 1 3 0, would_block);
                     (select_c 4 None (Some 3) 1, moves 0)]));
      [reflexivity|].
    apply (reaches_pass Tx sio0 4 _ _ (Xfer 1 2)
             (World [] EAGAIN
                    [(send_c 3 0 4 0, moves 1);
                     (send_c 3 1 3 0, would_block);
                     (select_c 4 None (Some 3) 1, moves 0);
                     (send_c 3 1 3 0, would_block);
                     (select_c 4 None (Some 3) 1, moves 0)]));
      [reflexivity|].
    apply reaches_here.
Defined.

(** Two connections that differ in the budget only make the same pass,
    unless the pass is a would-block followed by its wait. *)
Lemma body_other_budget d sio len m st w :
  xfer_body d (sio_set_maxnfails sio m) len st w = xfer_body d sio len st w
  \/ (exists r r2 rest,
         total_bytes st < len /\ script w = r :: r2 :: rest /\
         rv r = SOCK_ERR /\ is_again (errno_after r w) = true).
Proof.
  destruct (Z_lt_le_dec (total_bytes st) len) as [Hlt|Hge];
    [|left; rewrite !body_done by assumption; reflexivity].
  destruct (script w) as [|r rest] eqn:Hs;
    [left; rewrite !body_awaits by assumption; reflexivity|].
  destruct (Z.eq_dec (rv r) SOCK_ERR) as [Hr|Hr].
  - destruct (is_again (errno_after r w)) eqn:He.
    + destruct rest as [|r2 rest].
      * left. rewrite !(body_stall_awaits _ _ _ _ _ r) by assumption.
        reflexivity.
      * right. exists r, r2, rest. auto.
    + left. rewrite !(body_fatal _ _ _ _ _ r rest) by assumption. reflexivity.
  - destruct (Z_lt_le_dec 0 (rv r)) as [Hp|Hp].
    + left.
      rewrite !(body_moves _ _ _ _ _ r rest) by (assumption || (intros; assumption)).
      reflexivity.
    + destruct d.
      * left.
        rewrite !(body_moves _ _ _ _ _ r rest) by (assumption || discriminate).
        reflexivity.
      * left.
        rewrite !(recv_body_closed _ _ _ _ _ r rest) by (assumption || reflexivity).
        reflexivity.
Qed.

Lemma small_budget_loops d sio len (n : nat) :
  maxnfails sio <= 1 ->
  forall st w,
    (List.length (script w) < n)%nat ->
    nfails st = 0 ->
    xfer_loop d (sio_set_maxnfails sio 1) len st w = xfer_loop d sio len st w.
Proof.
  intros Hm. induction n as [|n IH]; intros st w Hn Hz; [lia|].
  rewrite !xfer_loop_eq.
  destruct (body_other_budget d sio len 1 st w)
    as [E | (r & r2 & rest & Hlt & Hs & Hr & He)].
  - rewrite E.
    destruct (xfer_body_pass d sio len st w)
      as [ | | r rest Hlt Hs Hr Hp | | | | r r2 rest Hlt Hs Hr He ];
      try reflexivity.
    + apply IH; [|reflexivity].
      cbn [answered script]. rewrite Hs in *. cbn [tl List.length] in *. lia.
    + rewrite Hz. change (int_wrap (0 + 1)) with 1.
      destruct (1 >=? maxnfails sio) eqn:G; [reflexivity|].
      rewrite Z.geb_leb in G. apply Z.leb_gt in G. lia.
  - rewrite (body_stall (sio_set_maxnfails sio 1) len d st w r r2 rest)
      by assumption.
    rewrite (body_stall sio len d st w r r2 rest) by assumption.
    rewrite Hz. change (int_wrap (0 + 1)) with 1.
    cbn [maxnfails sio_set_maxnfails].
    change (1 >=? 1) with true.
    destruct (1 >=? maxnfails sio) eqn:G; [reflexivity|].
    rewrite Z.geb_leb in G. apply Z.leb_gt in G. lia.
Qed.

(** X11.  A budget of 0 is a budget of 1: with [maxnfails = 0] a transfer does
    exactly what it does with [maxnfails = 1], the first would-block
    ending it after its wait. *)
Theorem budget_zero_is_budget_one :
  forall d sio len w,
    maxnfails sio = 0 ->
    sio_xfer d sio len w = sio_xfer d (sio_set_maxnfails sio 1) len w.
Proof.
  intros d sio len w Hm. rewrite !sio_xfer_is_loop. symmetry.
  apply (small_budget_loops d sio len (S (List.length (script w))));
    [lia|lia|reflexivity].
Qed.

Lemma budget_zero_is_budget_one_witness :
  sio_xfer Rx (sio_set_maxnfails sio0 0) 6
           (boot [moves 2; would_block; moves 1; moves 4]) =
  sio_xfer Rx (sio_set_maxnfails (sio_set_maxnfails sio0 0) 1) 6
           (boot [moves 2; would_block; moves 1; moves 4]).
Proof.
  apply (budget_zero_is_budget_one Rx (sio_set_maxnfails sio0 0) 6).
  reflexivity.
Defined.

Lemma larger_budget_loops d sio len m (n : nat) :
  maxnfails sio <= m ->
  forall st w w',
    (List.length (script w) < n)%nat ->
    xfer_loop d sio len st w = Returned 0 w' ->
    xfer_loop d (sio_set_maxnfails sio m) len st w = Returned 0 w'.
Proof.
  intros Hm. induction n as [|n IH]; intros st w w' Hn; [lia|].
  rewrite !xfer_loop_eq.
  destruct (body_other_budget d sio len m st w)
    as [E | (r & r2 & rest & Hlt & Hs & Hr & He)].
  - rewrite E.
    destruct (xfer_body_pass d sio len st w)
      as [ | | r rest Hlt Hs Hr Hp | | | | r r2 rest Hlt Hs Hr He ];
      try (intros Heq; exact Heq).
    + apply IH.
      cbn [answered script]. rewrite Hs in *. cbn [tl List.length] in *. lia.
    + destruct (int_wrap (nfails st + 1) >=? maxnfails sio);
        [intros Heq; exact Heq|].
      apply IH.
      cbn [answered script]. rewrite Hs in *. cbn [tl List.length] in *. lia.
  - rewrite (body_stall (sio_set_maxnfails sio m) len d st w r r2 rest)
      by assumption.
    rewrite (body_stall sio len d st w r r2 rest) by assumption.
    cbn [maxnfails sio_set_maxnfails].
    destruct (int_wrap (nfails st + 1) >=? maxnfails sio) eqn:G;
      [discriminate|].
    rewrite Z.geb_leb in G. apply Z.leb_gt in G.
    destruct (int_wrap (nfails st + 1) >=? m) eqn:G';
      [apply Z.geb_le in G'; lia|].
    apply IH.
    cbn [answered script]. rewrite Hs in *. cbn [tl List.length] in *. lia.
Qed.

(** X12.  Raising the budget never breaks a transfer: if a transfer returns 0,
    then with any larger [maxnfails], on the same replies, it returns 0 as
    well, having made the same calls. *)
Theorem larger_budget_keeps_success :
  forall d sio len m w w',
    maxnfails sio <= m ->
    sio_xfer d sio len w = Returned 0 w' ->
    sio_xfer d (sio_set_maxnfails sio m) len w = Returned 0 w'.
Proof.
  intros d sio len m w w' Hm. rewrite !sio_xfer_is_loop.
  apply (larger_budget_loops d sio len m (S (List.length (script w)))); auto.
Qed.

Lemma larger_budget_keeps_success_witness :
  sio_xfer Tx (sio_set_maxnfails sio0 9) 3
           (boot [moves 1; would_block; moves 1; moves 2]) =
  Returned 0
    (World [] EAGAIN
       [(send_c 3 0 3 0, moves 1);
        (send_c 3 1 2 0, would_block);
        (select_c 4 None (Some 3) 1, moves 1);
        (send_c 3 1 2 0, moves 2)]).
Proof.
  apply (larger_budget_keeps_success Tx sio0 3 9
           (boot [moves 1; would_block; moves 1; moves 2])).
  - cbn. lia.
  - reflexivity.
Defined.

(** *** sio_send and sio_recv: what decides the course of a transfer *)


Lemma send_recv_loops_agree sio len (n : nat) :
  forall st w1 w2,
    (List.length (script w1) < n)%nat ->
    script w1 = script w2 ->
    errno w1 = errno w2 ->
    Forall transfer_never_zero
           (since w1 (world_of (xfer_loop Tx sio len st w1))) ->
    summary (xfer_loop Tx sio len st w1) = summary (xfer_loop Rx sio len st w2).
Proof.
  induction n as [|n IH]; intros st w1 w2 Hn Hs He; [lia|].
  rewrite !xfer_loop_eq.
  assert (Hea : forall r, errno_after r w2 = errno_after r w1).
  { intros r. unfold errno_after. rewrite He. reflexivity. }
  destruct (xfer_body_pass Tx sio len st w1)
    as [ Hge | Hlt Hs1 | r rest Hlt Hs1 Hr Hp | r rest Hd Hlt Hs1 Hr Hz
         | r rest Hlt Hs1 Hr Hag | r Hlt Hs1 Hr Hag
         | r r2 rest Hlt Hs1 Hr Hag ];
    try rewrite Hs1 in Hs; symmetry in Hs.
  - intros _. rewrite body_done by assumption. cbn [summary]. congruence.
  - intros _. rewrite body_awaits by assumption. cbn [summary]. congruence.
  - (* bytes moved *)
    set (w1' := answered (request Tx sio len st) r w1).
    assert (Hlen1 : (List.length (script w1') < n)%nat).
    { subst w1'. cbn [answered script]. rewrite Hs1 in *.
      cbn [tl List.length] in *. lia. }
    rewrite (since_step w1 w1' _ [(request Tx sio len st, r)]);
      [|reflexivity|apply (xfer_loop_extends_trace Tx sio len n); exact Hlen1].
    cbn [app]. intros Hlog. apply Forall_cons_iff in Hlog.
    destruct Hlog as [Hev Hlog].
    assert (Hpos : 0 < rv r).
    { unfold transfer_never_zero, never_zero in Hev. cbn in Hev.
      destruct Hev as [Hev|Hev]; [contradiction|exact Hev]. }
    rewrite (body_moves sio len Rx st w2 r rest)
      by (assumption || (intros; assumption)).
    apply IH; try assumption.
    + subst w1'. cbn [answered script]. rewrite Hs1, Hs. reflexivity.
    + subst w1'. cbn [answered errno]. rewrite He. reflexivity.
  - discriminate.
  - intros _.
    rewrite (body_fatal sio len Rx st w2 r rest)
      by (assumption || (rewrite Hea; assumption)).
    cbn [summary answered script errno]. rewrite Hs1, Hs, He. reflexivity.
  - intros _.
    rewrite (body_stall_awaits sio len Rx st w2 r)
      by (assumption || (rewrite Hea; assumption)).
    cbn [summary answered script errno]. rewrite Hs1, Hs, He. reflexivity.
  - (* would-block and wait *)
    rewrite (body_stall sio len Rx st w2 r r2 rest)
      by (assumption || (rewrite Hea; assumption)).
    set (w1' := answered (wait_call Tx sio) r2
                         (answered (request Tx sio len st) r w1)).
    assert (Hlen1 : (List.length (script w1') < n)%nat).
    { subst w1'. cbn [answered script]. rewrite Hs1 in *.
      cbn [tl List.length] in *. lia. }
    assert (Htr1 : trace w1' = trace w1 ++ [(request Tx sio len st, r);
                                            (wait_call Tx sio, r2)]).
    { subst w1'. cbn [answered trace]. rewrite <- app_assoc. reflexivity. }
    destruct (int_wrap (nfails st + 1) >=? maxnfails sio).
    + intros _. subst w1'.
      cbn [summary answered script errno]. rewrite Hs1, Hs, He. reflexivity.
    + rewrite (since_step w1 w1' _ _ Htr1);
        [|apply (xfer_loop_extends_trace Tx sio len n); exact Hlen1].
      cbn [app]. intros Hlog.
      apply Forall_cons_iff in Hlog. destruct Hlog as [_ Hlog].
      apply Forall_cons_iff in Hlog. destruct Hlog as [_ Hlog].
      apply IH; try assumption.
      * subst w1'. cbn [answered script]. rewrite Hs1, Hs. reflexivity.
      * subst w1'. cbn [answered errno]. rewrite He. reflexivity.
Qed.

(** X13.  [sio_recv] follows the algorithm of [sio_send]: fed the same replies,
    on which no [send] is answered by a transfer of zero bytes, the two
    return the same value, or are both still running, having used the same
    replies and left the same [errno].  What the waits are answered, ready
    or timed out, makes no difference. *)
Theorem send_and_recv_share_the_algorithm :
  forall sio len replies e tr1 tr2,
    Forall transfer_never_zero
           (since (World replies e tr1)
                  (world_of (sio_send sio len (World replies e tr1)))) ->
    summary (sio_send sio len (World replies e tr1)) =
    summary (sio_recv sio len (World replies e tr2)).
Proof.
  intros sio len replies e tr1 tr2 Hz.
  change (sio_send sio len) with (xfer_loop Tx sio len (Xfer 0 0)) in *.
  change (sio_recv sio len) with (xfer_loop Rx sio len (Xfer 0 0)).
  apply (send_recv_loops_agree sio len (S (List.length replies)));
    cbn [script errno]; auto.
Qed.

(** A run in which the wait times out: [select] is answered 0. *)
Lemma send_and_recv_share_the_algorithm_witness :
  summary (sio_send sio0 5 (World [moves 2; would_block; moves 0; moves 3] 0 [])) =
  summary (sio_recv sio0 5 (World [moves 2; would_block; moves 0; moves 3] 0 [])).
Proof.
  apply (send_and_recv_share_the_algorithm sio0 5
           [moves 2; would_block; moves 0; moves 3] 0 [] []).
  vm_compute since.
  repeat constructor; unfold transfer_never_zero, never_zero; cbn; lia.
Defined.



(** *** sio_send and sio_recv: edges *)

(** X15.  A receive of length 0 returns 0 without a call to the platform: it
    says nothing about the peer, closed or not. *)
Theorem sio_recv_zero_length :
  forall sio w, sio_recv sio 0 w = Returned 0 w.
Proof.
  intros sio w.
  change (sio_recv sio 0 w) with (xfer_loop Rx sio 0 (Xfer 0 0) w).
  rewrite xfer_loop_eq, body_done by (cbn; lia).
  reflexivity.
Qed.

Lemma stall_log_accounts d sio len total waits :
  waited (stall_log d sio len total waits)
  = Z.of_nat (List.length waits) * timeout sio
  /\ transferred (stall_log d sio len total waits) = 0.
Proof.
  induction waits as [|s waits [IHw IHt]]; [split; reflexivity|].
  cbn [stall_log flat_map app List.length].
  fold (stall_log d sio len total waits).
  rewrite Nat2Z.inj_succ.
  split.
  - destruct d; cbn [waited request xfer_call wait_call]; rewrite IHw; lia.
  - destruct d; cbn [transferred request xfer_call wait_call xfer_count];
      rewrite IHt; reflexivity.
Qed.

(** X16.  The comment above [sio_send]: a transfer that cannot move a byte is
    given up after [maxnfails * timeout] seconds.  When the first
    [maxnfails] replies are would-blocks, the call returns -1 having moved
    nothing, and the waits it made allow for [maxnfails * timeout] seconds
    in all. *)
Theorem stalled_transfer_waits_budget_times_timeout :
  forall d sio len waits rest e tr,
    0 < len ->
    1 <= maxnfails sio <= INT_MAX ->
    Z.of_nat (List.length waits) = maxnfails sio ->
    let w := World (stalls waits ++ rest) e tr in
    exists w',
      sio_xfer d sio len w = Returned (-1) w' /\
      script w' = rest /\
      waited (since w w') = maxnfails sio * timeout sio /\
      transferred (since w w') = 0.
Proof.
  intros d sio len waits rest e tr Hlen Hmax Hw w. subst w.
  rewrite sio_xfer_is_loop.
  destruct (stalls_exhaust d sio len (proj2 Hmax) waits 0 0 rest e tr)
    as (w' & Hs & Htr & Hl); try lia.
  exists w'. split; [exact Hl|]. split; [exact Hs|].
  rewrite (since_app (World (stalls waits ++ rest) e tr) w'
                     (stall_log d sio len 0 waits) Htr).
  destruct (stall_log_accounts d sio len 0 waits) as [Hwt Htf].
  rewrite Hwt, Htf, Hw. split; reflexivity.
Qed.

Lemma stalled_transfer_waits_budget_times_timeout_witness :
  let w := World (stalls [moves 0; moves 1; moves 0] ++ [moves 4]) 0 [] in
  exists w',
    sio_xfer Rx (sio_set_timeout sio0 5) 4 w = Returned (-1) w' /\
    script w' = [moves 4] /\
    waited (since w w') = maxnfails (sio_set_timeout sio0 5)
                          * timeout (sio_set_timeout sio0 5) /\
    transferred (since w w') = 0.
Proof.
  apply (stalled_transfer_waits_budget_times_timeout Rx (sio_set_timeout sio0 5) 4
           [moves 0; moves 1; moves 0] [moves 4] 0 []).
  - lia.
  - unfold INT_MAX. cbn. lia.
  - reflexivity.
Defined.

Lemma xfer_loop_first_call d sio len st w r rest :
  total_bytes st < len -> script w = r :: rest ->
  exists evs,
    since w (world_of (xfer_loop d sio len st w)) =
    (request d sio len st, r) :: evs.
Proof.
  intros Hlt Hs. rewrite xfer_loop_eq.
  destruct (xfer_body_pass d sio len st w)
    as [ Hge | Hlt' Hs' | r' rest' Hlt' Hs' Hr Hp | r' rest' Hd Hlt' Hs' Hr Hz
         | r' rest' Hlt' Hs' Hr He | r' Hlt' Hs' Hr He
         | r' r2 rest' Hlt' Hs' Hr He ];
    try lia; try congruence;
    assert (r' = r) by congruence; subst r'; cbn [world_of].
  - set (w1 := answered (request d sio len st) r w).
    destruct (xfer_loop_extends_trace
                d sio len (S (List.length (script w1)))
                (Xfer (size_wrap (total_bytes st + rv r)) 0) w1) as [evs He];
      [lia|].
    exists (since w1 (world_of (xfer_loop d sio len
                                  (Xfer (size_wrap (total_bytes st + rv r)) 0) w1))).
    apply (since_step w w1 _ [(request d sio len st, r)]);
      [reflexivity|exists evs; exact He].
  - exists []. apply since_app. reflexivity.
  - exists []. apply since_app. reflexivity.
  - exists []. apply since_app. reflexivity.
  - set (w1 := answered (wait_call d sio) r2
                        (answered (request d sio len st) r w)).
    assert (Htr1 : trace w1 = trace w ++ [(request d sio len st, r);
                                          (wait_call d sio, r2)]).
    { subst w1. cbn [answered trace]. rewrite <- app_assoc. reflexivity. }
    destruct (int_wrap (nfails st + 1) >=? maxnfails sio).
    + exists [(wait_call d sio, r2)]. apply since_app. exact Htr1.
    + destruct (xfer_loop_extends_trace
                  d sio len (S (List.length (script w1)))
                  (Xfer (total_bytes st) (int_wrap (nfails st + 1))) w1)
        as [evs He']; [lia|].
      eexists. rewrite (since_step w w1 _ _ Htr1); [|exists evs; exact He'].
      reflexivity.
Qed.

(** X17.  Nothing stops a transfer on a closed connection: after [sio_close], a
    send or a receive of [len > 0] bytes goes to the platform all the
    same, with [INV_SOCK] for a descriptor. *)
Theorem transfer_after_close_uses_sentinel :
  forall d sio len c r rest e tr,
    0 < len <= SIZE_MAX ->
    let w := World (c :: r :: rest) e tr in
    let o := bind (sio_close sio) (fun closed => sio_xfer d closed len) w in
    firstn 2 (since w (world_of o)) =
    [(close_c (socket sio), c); (xfer_call d INV_SOCK 0 len 0, r)].
Proof.
  intros d sio len c r rest e tr Hlen w o. subst o w.
  unfold bind at 1. unfold sio_close, bind, platform, ret.
  cbn [script errno trace].
  set (w1 := World (r :: rest) _ _).
  rewrite sio_xfer_is_loop.
  destruct (xfer_loop_first_call d (with_socket sio INV_SOCK) len (Xfer 0 0)
                                 w1 r rest) as [evs Hev];
    [cbn [total_bytes]; lia|reflexivity|].
  rewrite (since_step (World (c :: r :: rest) e tr) w1 _
                      [(close_c (socket sio), c)]);
    [|reflexivity
     |apply (xfer_loop_extends_trace d _ len (S (List.length (script w1))));
      lia].
  rewrite Hev. unfold request. cbn [total_bytes with_socket socket app firstn].
  rewrite Z.sub_0_r, size_wrap_small by lia. reflexivity.
Qed.

Lemma transfer_after_close_uses_sentinel_witness :
  let w := World [moves 0; fails 9; moves 7] 0 [] in
  let o := bind (sio_close sio0) (fun closed => sio_xfer Tx closed 8) w in
  firstn 2 (since w (world_of o)) =
  [(close_c (socket sio0), moves 0); (xfer_call Tx INV_SOCK 0 8 0, fails 9)].
Proof.
  apply (transfer_after_close_uses_sentinel Tx sio0 8 (moves 0) (fails 9)
           [moves 7] 0 []).
  unfold SIZE_MAX. lia.
Defined.

(** *** The setters *)

(** X18.  [sio_set_option] can only add options: every bit that was set in
    [opts] stays set and every bit of [opt] gets set; setting the same
    option twice is setting it once, the order of two settings does not
    matter, and the handle, the timeout and the budget are left alone. *)
Theorem sio_set_option_only_adds :
  forall sio a b,
    (forall i, Z.testbit (opts (sio_set_option sio a)) i =
               Z.testbit (opts sio) i || Z.testbit a i) /\
    sio_set_option (sio_set_option sio a) a = sio_set_option sio a /\
    sio_set_option (sio_set_option sio a) b =
      sio_set_option (sio_set_option sio b) a /\
    socket (sio_set_option sio a) = socket sio /\
    timeout (sio_set_option sio a) = timeout sio /\
    maxnfails (sio_set_option sio a) = maxnfails sio.
Proof.
  intros sio a b. unfold sio_set_option.
  cbn [socket opts timeout maxnfails].
  split; [intros i; apply Z.lor_spec|].
  split; [rewrite <- Z.lor_assoc, Z.lor_diag; reflexivity|].
  split; [|repeat split].
  rewrite <- !Z.lor_assoc, (Z.lor_comm a b). reflexivity.
Qed.
